(** * clio: setup / run orchestration of a command-line application

    A shallow embedding of [application.go]: the initializer chain, the
    configuration load list, the Setup hook, command binding, the
    profiling bracket around the event loop and the goroutine started by
    [async].  Go values that are shared by reference (the application,
    the commands) live in an explicit store; calls into collaborators
    that are not part of the package (the fangs loader, the logger, yaml,
    the profiler, the event loop) are parameters of the development. *)

From Stdlib Require Import List String Ascii Bool Arith Lia.
Import ListNotations.

Local Open Scope string_scope.
Local Open Scope list_scope.

Infix "+++" := String.append (right associativity, at level 60).

(** ** Strings *)

Module Str.

(** The newline byte, written ["\n"] in the Go source. *)
Definition nl : string := String "010"%char EmptyString.

Definition bytes (s : string) : list ascii := list_ascii_of_string s.
Definition of_bytes (l : list ascii) : string := string_of_list_ascii l.

(** [strings.HasPrefix(s, p)]. *)
Definition HasPrefix (s p : string) : bool := String.prefix p s.

(** The test for the empty string. *)
Definition is_empty (s : string) : bool :=
  match s with EmptyString => true | String _ _ => false end.

(** *** [strings.TrimSpace]

    Go trims the runes for which [unicode.IsSpace] holds.  On the bytes
    of a string these are the six ASCII characters tab, line feed,
    vertical tab, form feed, carriage return and space, and the UTF-8
    encodings of U+0085, U+00A0, U+1680, U+2000..U+200A, U+2028, U+2029,
    U+202F, U+205F and U+3000. *)

Definition b (n : nat) : ascii := ascii_of_nat n.

Definition space_runes : list (list ascii) :=
  [ [b 9]; [b 10]; [b 11]; [b 12]; [b 13]; [b 32];
    [b 194; b 133]; [b 194; b 160];
    [b 225; b 154; b 128];
    [b 226; b 128; b 128]; [b 226; b 128; b 129]; [b 226; b 128; b 130];
    [b 226; b 128; b 131]; [b 226; b 128; b 132]; [b 226; b 128; b 133];
    [b 226; b 128; b 134]; [b 226; b 128; b 135]; [b 226; b 128; b 136];
    [b 226; b 128; b 137]; [b 226; b 128; b 138];
    [b 226; b 128; b 168]; [b 226; b 128; b 169]; [b 226; b 128; b 175];
    [b 226; b 129; b 159];
    [b 227; b 128; b 128] ].

(** [strip p l] is the rest of [l] after the bytes [p], if [l] starts with them. *)
Fixpoint strip (p l : list ascii) : option (list ascii) :=
  match p, l with
  | [], _ => Some l
  | _ :: _, [] => None
  | x :: p', y :: l' => if Ascii.eqb x y then strip p' l' else None
  end.

Fixpoint strip_any (ps : list (list ascii)) (l : list ascii) : option (list ascii) :=
  match ps with
  | [] => None
  | p :: ps' => match strip p l with
                | Some r => Some r
                | None => strip_any ps' l
                end
  end.

(** Drop runes of [ps] from the front of [l] for as long as one is there;
    every round removes at least one byte, so [length l] rounds suffice. *)
Fixpoint trim_front (ps : list (list ascii)) (n : nat) (l : list ascii) : list ascii :=
  match n with
  | 0 => l
  | S n' => match strip_any ps l with
            | Some r => trim_front ps n' r
            | None => l
            end
  end.

Definition TrimLeft (l : list ascii) : list ascii :=
  trim_front space_runes (List.length l) l.

(** Trimming at the end reads the string backwards, so the runes are
    matched with their bytes reversed. *)
Definition TrimRight (l : list ascii) : list ascii :=
  rev (trim_front (map (@rev ascii) space_runes) (List.length l) (rev l)).

Definition TrimSpace (s : string) : string :=
  of_bytes (TrimRight (TrimLeft (bytes s))).

End Str.

Import Str.

(** ** Errors

    A Go [error] is an interface value; [nil] is [None] in the model.  A
    non-nil error is represented by the text its [Error()] method returns. *)

Record error : Type := errorString { Error : string }.

(** ** [fmt.Sprintf] on string operands

    The fragment of the formatting language that the package uses:
    literal text, [%%], and the verbs [%s] and [%v] with any number of
    [+] flags, applied to string operands.  A format that ends after a
    [%] yields [%!(NOVERB)], a verb without an operand left yields
    [%!v(MISSING)], and operands left over are reported as
    [%!(EXTRA string=...)].  Every other directive (width, precision,
    other flags, argument indexes, other verbs) is outside the fragment
    and gives [None]. *)

Module Fmt.

Definition percent : ascii := "%"%char.
Definition plus : ascii := "+"%char.

Fixpoint extra (args : list string) : string :=
  match args with
  | [] => EmptyString
  | [a] => "string=" +++ a
  | a :: rest => "string=" +++ a +++ ", " +++ extra rest
  end.

Definition finish (args : list string) : string :=
  match args with
  | [] => EmptyString
  | _ :: _ => "%!(EXTRA " +++ extra args +++ ")"
  end.

Definition is_lower (c : ascii) : bool :=
  let n := nat_of_ascii c in Nat.leb 97 n && Nat.leb n 122.

(** [doPrintf]: [in_verb] is set after a [%] has been read (and while its
    [+] flags are being read). *)
Fixpoint doPrintf (in_verb : bool) (format : string) (args : list string) : option string :=
  match format with
  | EmptyString =>
      if in_verb then Some ("%!(NOVERB)" +++ finish args) else Some (finish args)
  | String c rest =>
      if in_verb then
        if Ascii.eqb c plus then doPrintf true rest args
        else if Ascii.eqb c percent then
          option_map (String percent) (doPrintf false rest args)
        else if is_lower c then
          match args with
          | [] => option_map (fun r => "%!" +++ String c "(MISSING)" +++ r)
                             (doPrintf false rest args)
          | a :: args' =>
              if Ascii.eqb c "s"%char || Ascii.eqb c "v"%char
              then option_map (fun r => a +++ r) (doPrintf false rest args')
              else None
          end
        else None
      else
        if Ascii.eqb c percent then doPrintf true rest args
        else option_map (String c) (doPrintf false rest args)
  end.

Definition Sprintf (format : string) (args : list string) : option string :=
  doPrintf false format args.

(** A string without a [%] byte. *)
Fixpoint no_percent (s : string) : bool :=
  match s with
  | EmptyString => true
  | String c r => negb (Ascii.eqb c percent) && no_percent r
  end.

End Fmt.

(** ** Data model *)

(** Go [func] values are code pointers, and the objects the package
    shares by reference are addressed by pointers as well. *)
Definition funcptr := nat.
Definition cmdptr := nat.
Definition objptr := nat.

(** The dynamic values that travel in the [[]any] configuration lists:
    [&a.state.Config], the application [a] itself, or a pointer to a
    configuration object of the embedding program.  The [nil] interface
    value is [None]. *)
Inductive dyn : Type :=
| DCore
| DApp
| DObj (p : objptr).

Definition any := option dyn.

(** [logger.Logger]: a logger handed out by the logger constructor, or one
    derived from it with [Nested(fields...)]. *)
Inductive Logger : Type :=
| LoggerHandle (id : nat)
| Nested (parent : Logger) (fields : list string).

(** Modelled from the spec: the [Profile] type and its constants
    [ProfileCPU] and [ProfileMem] are declared outside [application.go];
    the spec names exactly two supported modes, CPU and memory profiling.
    [ProfileOther] stands for every other value of the type (the empty,
    disabled setting included). *)
Inductive Profile : Type :=
| ProfileCPU
| ProfileMem
| ProfileOther (name : string).

Record DevelopmentConfig : Type := { Dev_Profile : Profile }.

(** The modes of github.com/pkg/profile that [run] passes to [profile.Start]. *)
Inductive profile_mode : Type := CPUProfile | MemProfile.

Module cobra.

(** The hook stored in [PreRunE]: a function of the embedding program, or
    the closure that [setupCommand] builds, which captures [cfgs] and the
    hook that was bound before ([original], possibly nil). *)
#[warnings="-register-all"]
Inductive PreRunFn : Type :=
| UserPreRun (f : funcptr)
| SetupPreRun (cfgs : list any) (original : option PreRunFn).

(** The hook stored in [RunE]: a function of the embedding program, or the
    closure returned by [a.Run(fn)]. *)
Inductive RunFn : Type :=
| UserRun (f : funcptr)
| AppRun (fn : RunFn).

(** The fields of [cobra.Command] that the package reads or writes. *)
Record Command : Type := {
  Use : string;
  Version : string;
  versionTemplate : string;
  PreRunE : option PreRunFn;
  RunE : option RunFn;
  SilenceUsage : bool;
  SilenceErrors : bool;
  ctx : nat
}.

Definition set_Use (v : string) (c : Command) : Command :=
  {| Use := v; Version := Version c; versionTemplate := versionTemplate c;
     PreRunE := PreRunE c; RunE := RunE c; SilenceUsage := SilenceUsage c;
     SilenceErrors := SilenceErrors c; ctx := ctx c |}.

Definition set_Version (v : string) (c : Command) : Command :=
  {| Use := Use c; Version := v; versionTemplate := versionTemplate c;
     PreRunE := PreRunE c; RunE := RunE c; SilenceUsage := SilenceUsage c;
     SilenceErrors := SilenceErrors c; ctx := ctx c |}.

Definition SetVersionTemplate (v : string) (c : Command) : Command :=
  {| Use := Use c; Version := Version c; versionTemplate := v;
     PreRunE := PreRunE c; RunE := RunE c; SilenceUsage := SilenceUsage c;
     SilenceErrors := SilenceErrors c; ctx := ctx c |}.

Definition set_PreRunE (v : option PreRunFn) (c : Command) : Command :=
  {| Use := Use c; Version := Version c; versionTemplate := versionTemplate c;
     PreRunE := v; RunE := RunE c; SilenceUsage := SilenceUsage c;
     SilenceErrors := SilenceErrors c; ctx := ctx c |}.

Definition set_RunE (v : option RunFn) (c : Command) : Command :=
  {| Use := Use c; Version := Version c; versionTemplate := versionTemplate c;
     PreRunE := PreRunE c; RunE := v; SilenceUsage := SilenceUsage c;
     SilenceErrors := SilenceErrors c; ctx := ctx c |}.

Definition set_SilenceUsage (v : bool) (c : Command) : Command :=
  {| Use := Use c; Version := Version c; versionTemplate := versionTemplate c;
     PreRunE := PreRunE c; RunE := RunE c; SilenceUsage := v;
     SilenceErrors := SilenceErrors c; ctx := ctx c |}.

Definition set_SilenceErrors (v : bool) (c : Command) : Command :=
  {| Use := Use c; Version := Version c; versionTemplate := versionTemplate c;
     PreRunE := PreRunE c; RunE := RunE c; SilenceUsage := SilenceUsage c;
     SilenceErrors := v; ctx := ctx c |}.

End cobra.

(** What the package and its collaborators do that can be observed from
    outside, in the order it happens. *)
Inductive Event : Type :=
| EvInfof (log : Logger) (format : string) (args : list string)
| EvDebugf (log : Logger) (format : string) (args : list string)
| EvDebug (log : Logger) (args : list string)
| EvAddFlags (cmd : cmdptr) (cfgs : list any)
| EvProfileStart (m : profile_mode)
| EvProfileStop (m : profile_mode)
| EvExtern (tag : string).

(** The text of a log record, as a printf-style logger renders the call. *)
Definition rendered (e : Event) : option string :=
  match e with
  | EvInfof _ format args => Fmt.Sprintf format args
  | EvDebugf _ format args => Fmt.Sprintf format args
  | EvDebug _ args => Some (String.concat EmptyString args)
  | _ => None
  end.

Definition is_log (e : Event) : bool :=
  match e with
  | EvInfof _ _ _ | EvDebugf _ _ _ | EvDebug _ _ => true
  | _ => false
  end.

(** How a function leaves: by returning its [error] result, or by a panic. *)
Inductive exit : Type :=
| Returns (err : option error)
| Panics (v : string).

(** Types declared outside [application.go]: the logging configuration,
    the configuration of the fangs loader, and the memory of the embedding
    program (its configuration objects, and whatever else its callbacks
    reach). *)
Class Types : Type := {
  LoggingConfig : Type;
  FangsConfig : Type;
  Env : Type
}.

Section Model.

Context {T : Types}.

Record Identification : Type := { Name : string; Version : string }.

(** Modelled from the spec: [SetupConfig] is declared outside
    [application.go]; it holds the application identity, the default
    logging and development configuration, the ordered initializers, the
    ordered post-construction hooks and the loader configuration. *)
Record SetupConfig : Type := {
  ID : Identification;
  DefaultLoggingConfig : option LoggingConfig;
  DefaultDevelopmentConfig : option DevelopmentConfig;
  Initializers : list funcptr;
  postConstructs : list funcptr;
  SetupFangsConfig : FangsConfig
}.

(** Modelled from the spec: [Config] and [State] are declared outside
    [application.go]; these are the fields the spec lists and the code
    uses.  The logger is taken to be present whenever it is used. *)
Record Config : Type := {
  Log : option LoggingConfig;
  Dev : option DevelopmentConfig;
  FromCommands : list any
}.

Record State : Type := {
  StConfig : Config;
  StLogger : Logger;
  Subscription : nat;
  UIs : list nat;
  RedactStore : option nat;
  Bus : option nat
}.

Record application : Type := {
  root : option cmdptr;
  setupConfig : SetupConfig;
  state : State
}.

(** The store: the application, the commands by address, and the memory
    of the embedding program. *)
Record World : Type := {
  app : application;
  cmds : cmdptr -> cobra.Command;
  env : Env
}.

Definition set_Config (c : Config) (s : State) : State :=
  {| StConfig := c; StLogger := StLogger s; Subscription := Subscription s;
     UIs := UIs s; RedactStore := RedactStore s; Bus := Bus s |}.

Definition set_state (s : State) (a : application) : application :=
  {| root := root a; setupConfig := setupConfig a; state := s |}.

Definition set_root (r : option cmdptr) (a : application) : application :=
  {| root := r; setupConfig := setupConfig a; state := state a |}.

Definition set_app (a : application) (w : World) : World :=
  {| app := a; cmds := cmds w; env := env w |}.

(** Update the command that [cmd] points to. *)
Definition upd_cmd (cmd : cmdptr) (f : cobra.Command -> cobra.Command) (w : World) : World :=
  {| app := app w;
     cmds := fun p => if Nat.eqb p cmd then f (cmds w cmd) else cmds w p;
     env := env w |}.

Definition upd_Config (f : Config -> Config) (w : World) : World :=
  set_app (set_state (set_Config (f (StConfig (state (app w)))) (state (app w))) (app w)) w.

(** *** Effects

    A computation takes the store and gives a value, the new store and
    the events it produced. *)
Record Res (A : Type) : Type := mkRes { val : A; world : World; evs : list Event }.
Arguments mkRes {A}.
Arguments val {A}.
Arguments world {A}.
Arguments evs {A}.

Definition M (A : Type) : Type := World -> Res A.

Definition ret {A} (x : A) : M A := fun w => mkRes x w [].

Definition bind {A B} (m : M A) (f : A -> M B) : M B :=
  fun w => let r := m w in
           let r' := f (val r) (world r) in
           mkRes (val r') (world r') (evs r ++ evs r').

Definition get : M World := fun w => mkRes w w [].
Definition modify (f : World -> World) : M unit := fun w => mkRes tt (f w) [].
Definition emit (e : Event) : M unit := fun w => mkRes tt w [e].
Definition emits (es : list Event) : M unit := fun w => mkRes tt w es.

End Model.

Arguments mkRes {T A}.
Arguments val {T A}.
Arguments world {T A}.
Arguments evs {T A}.

Notation "x <- m ;; k" := (bind m (fun x => k))
  (at level 61, m at next level, right associativity).
Notation "m ;;; k" := (bind m (fun _ => k))
  (at level 61, right associativity).

(** ** Collaborators *)

Class Collaborators {T : Types} : Type := {
  (** The code behind the function pointers registered by the embedding
      program: initializers (of type [Initializer]; closures that may
      reach the program's own memory as well), post-construction hooks
      (of type [postConstruct]) and pre-execution hooks of commands. *)
  initializer : funcptr -> M (option error);
  postConstruct : funcptr -> M unit;
  userPreRunE : funcptr -> cmdptr -> list string -> M (option error);
  (** The method [setup] of [State], declared elsewhere in the package:
      builds the logger, the bus, the redaction store and the UIs from the
      setup configuration. *)
  state_setup : SetupConfig -> M (option error);
  (** [eventloop], declared elsewhere in the package. *)
  eventloop : nat -> Logger -> nat -> nat -> list nat -> M exit;
  (** [fmt.Stringer] and [yaml.Marshal] on a configuration value: the text
      of [String()] when the dynamic type has that method, and the bytes
      or the error of the YAML encoder. *)
  Stringer : World -> dyn -> option string;
  yaml_Marshal : World -> dyn -> string + error;
  (** [color.Magenta.Sprint] and [indent.String]. *)
  Magenta_Sprint : string -> string;
  indent_String : string -> string -> string;
  (** For the loader: reading one target's values from flags, environment
      and files, and the post-load hooks of the targets that are not the
      application (the core configuration and the objects of the
      embedding program). *)
  populate : FangsConfig -> cmdptr -> any -> M (option error);
  corePostLoad : option (M (option error));
  objPostLoad : objptr -> option (M (option error))
}.

(** [fangs.Load], the Config Loader Bridge. *)
Class Loader {T : Types} : Type := {
  Load : FangsConfig -> cmdptr -> list any -> M (option error)
}.

Section Clio.

Context {T : Types} {C : Collaborators}.

(** ** The initializer chain *)

(** [for _, init := range inits { if err := init(&a.state); err != nil { return err } }; return nil] *)
Fixpoint runInitializers_range (inits : list funcptr) : M (option error) :=
  match inits with
  | [] => ret None
  | init :: rest =>
      err <- initializer init ;;
      match err with
      | Some e => ret (Some e)
      | None => runInitializers_range rest
      end
  end.

Definition runInitializers : M (option error) :=
  w <- get ;;
  runInitializers_range (Initializers (setupConfig (app w))).

Definition PostLoad : M (option error) :=
  w <- get ;;
  err <- state_setup (setupConfig (app w)) ;;
  match err with
  | Some e => ret (Some e)
  | None => runInitializers
  end.

(** ** The Config Loader Bridge *)

(** The post-load hook a target exposes; [*application] has [PostLoad]. *)
Definition post_load_hook (t : any) : option (M (option error)) :=
  match t with
  | None => None
  | Some DCore => corePostLoad
  | Some DApp => Some PostLoad
  | Some (DObj p) => objPostLoad p
  end.

Definition run_hook (h : option (M (option error))) : M (option error) :=
  match h with
  | Some f => f
  | None => ret None
  end.

(** Modelled from the spec: [fangs.Load] belongs to another module.  The
    bridge populates each target from the sources and invokes the
    target's post-load hook, if it has one, immediately afterwards, target
    by target in list order; the first failure ends the load and is the
    result. *)
Fixpoint fangs_Load (cfg : FangsConfig) (cmd : cmdptr) (targets : list any) : M (option error) :=
  match targets with
  | [] => ret None
  | t :: rest =>
      err <- populate cfg cmd t ;;
      match err with
      | Some e => ret (Some e)
      | None =>
          err <- run_hook (post_load_hook t) ;;
          match err with
          | Some e => ret (Some e)
          | None => fangs_Load cfg cmd rest
          end
      end
  end.

(** ** Logging the version and the configuration *)

Definition version_format : string := "%s version: %+v".

(** The call that [logVersion] makes on the logger. *)
Definition version_record (cfg : SetupConfig) (log : Logger) : Event :=
  if is_empty (Version (ID cfg)) then
    EvInfof log (Name (ID cfg)) []
  else
    EvInfof log version_format [Name (ID cfg); Version (ID cfg)].

Definition logVersion (cfg : SetupConfig) (log : Logger) : M unit :=
  emit (version_record cfg log).

(** [fmt.Sprintf("%+v", err)]: an error operand prints as its [Error()] text. *)
Definition Sprintf_plus_v (err : error) : string := Error err.

(** The text of one configuration value, before trimming. *)
Definition rendering (w : World) (cfg : dyn) : string :=
  match Stringer w cfg with
  | Some str => str
  | None =>
      match yaml_Marshal w cfg with
      | inr err => Sprintf_plus_v err
      | inl cfgBytes => cfgBytes
      end
  end.

(** The test that guards [sb.WriteString]: the trimmed text is neither
    empty nor a pair of braces. *)
Definition has_content (str : string) : bool :=
  negb (is_empty str) && negb (String.eqb str "{}").

(** The loop of [logConfiguration]; [sb] is the string builder. *)
Fixpoint logConfiguration_range (w : World) (cfgs : list any) (sb : string) : string :=
  match cfgs with
  | [] => sb
  | None :: rest => logConfiguration_range w rest sb
  | Some cfg :: rest =>
      let str := TrimSpace (rendering w cfg) in
      if has_content str
      then logConfiguration_range w rest (sb +++ str +++ nl)
      else logConfiguration_range w rest sb
  end.

Definition config_format : string := "config:" +++ nl +++ "%+v".
Definition config_none : string := "config: (none)".

(** The call that [logConfiguration] makes on the logger, given what the
    loop has written to the string builder. *)
Definition config_record (log : Logger) (content : string) : Event :=
  if negb (is_empty content) then
    let formatted := Magenta_Sprint (indent_String "  " (TrimSpace content)) in
    EvDebugf log config_format [formatted]
  else
    EvDebug log [config_none].

Definition logConfiguration (log : Logger) (cfgs : list any) : M unit :=
  w <- get ;;
  emit (config_record log (logConfiguration_range w cfgs EmptyString)).

(** ** Loading the configuration *)

(** The loop of [nonNil]; [ret] is the slice built so far. *)
Fixpoint nonNil_range (a ret : list any) : list any :=
  match a with
  | [] => ret
  | v :: rest =>
      match v with
      | Some _ => nonNil_range rest (ret ++ [v])
      | None => nonNil_range rest ret
      end
  end.

Definition nonNil (a : list any) : list any := nonNil_range a [].

(** [fmt.Errorf("invalid application config: %v", err)] *)
Definition invalid_prefix : string := "invalid application config: ".

Definition Errorf_invalid (err : error) : error :=
  errorString (invalid_prefix +++ Error err).

(** The loader as the package is written against it, and the model of
    its behaviour. *)
Definition fangs : Loader := {| Load := fangs_Load |}.

Section Loader.

Context {L : Loader}.

Definition loadConfigs (cmd : cmdptr) (withResources : bool) (cfgs : list any)
  : M (list any * option error) :=
  let allConfigs := [Some DCore] in
  let allConfigs := if withResources then allConfigs ++ [Some DApp] else allConfigs in
  let allConfigs := allConfigs ++ cfgs in
  let allConfigs := nonNil allConfigs in
  w <- get ;;
  err <- Load (SetupFangsConfig (setupConfig (app w))) cmd allConfigs ;;
  match err with
  | Some e => ret ([], Some (Errorf_invalid e))
  | None => ret (allConfigs, None)
  end.

(** The closure returned by [a.Setup(cfgs...)], applied to [cmd] and [args]. *)
Definition Setup (cfgs : list any) (cmd : cmdptr) (args : list string) : M (option error) :=
  r <- loadConfigs cmd true cfgs ;;
  match snd r with
  | Some e => ret (Some e)
  | None =>
      w <- get ;;
      logVersion (setupConfig (app w)) (StLogger (state (app w))) ;;;
      w <- get ;;
      logConfiguration (StLogger (state (app w))) (fst r) ;;;
      ret None
  end.

(** ** Binding onto commands *)

(** Calling the function stored in [PreRunE] with [cmd] and [args].  The
    second case is the body of the closure that [setupCommand] assigns. *)
Fixpoint call_PreRunE (fn : cobra.PreRunFn) (cmd : cmdptr) (args : list string)
  : M (option error) :=
  match fn with
  | cobra.UserPreRun f => userPreRunE f cmd args
  | cobra.SetupPreRun cfgs original =>
      err <- Setup cfgs cmd args ;;
      match err with
      | Some e => ret (Some e)
      | None =>
          match original with
          | Some o => call_PreRunE o cmd args
          | None => ret None
          end
      end
  end.

Definition set_FromCommands (v : list any) (c : Config) : Config :=
  {| Log := Log c; Dev := Dev c; FromCommands := v |}.

Definition set_Log (v : option LoggingConfig) (c : Config) : Config :=
  {| Log := v; Dev := Dev c; FromCommands := FromCommands c |}.

Definition set_Dev (v : option DevelopmentConfig) (c : Config) : Config :=
  {| Log := Log c; Dev := v; FromCommands := FromCommands c |}.

(** [setupCommand(cmd, cmd.Flags(), &cmd.PreRunE, cfgs...)]: both callers
    pass the command's own flag set and the address of its [PreRunE]. *)
Definition setupCommand (cmd : cmdptr) (cfgs : list any) : M cmdptr :=
  w <- get ;;
  let original := cobra.PreRunE (cmds w cmd) in
  modify (upd_cmd cmd (cobra.set_PreRunE (Some (cobra.SetupPreRun cfgs original)))) ;;;
  w <- get ;;
  match cobra.RunE (cmds w cmd) with
  | Some fn => modify (upd_cmd cmd (cobra.set_RunE (Some (cobra.AppRun fn))))
  | None => ret tt
  end ;;;
  modify (upd_cmd cmd (cobra.set_SilenceUsage true)) ;;;
  modify (upd_cmd cmd (cobra.set_SilenceErrors true)) ;;;
  modify (upd_Config (fun c => set_FromCommands (FromCommands c ++ cfgs) c)) ;;;
  emit (EvAddFlags cmd cfgs) ;;;
  ret cmd.

(** [cp]: a fresh copy of the value behind a pointer, [nil] for [nil]. *)
Definition cp {T : Type} (value : option T) : option T :=
  match value with
  | None => None
  | Some t => Some t
  end.

(** [fmt.Sprintf("%s {{.Version}}\n", name)] *)
Definition version_template (name : string) : string :=
  name +++ " {{.Version}}" +++ nl.

Fixpoint postConstructs_range (pcs : list funcptr) : M unit :=
  match pcs with
  | [] => ret tt
  | pc :: rest => postConstruct pc ;;; postConstructs_range rest
  end.

Definition setupRootCommand (cmd : cmdptr) (cfgs : list any) : M cmdptr :=
  w <- get ;;
  (if negb (HasPrefix (cobra.Use (cmds w cmd)) (Name (ID (setupConfig (app w)))))
   then modify (upd_cmd cmd (cobra.set_Use (Name (ID (setupConfig (app w))))))
   else ret tt) ;;;
  w <- get ;;
  modify (upd_cmd cmd (cobra.set_Version (Version (ID (setupConfig (app w)))))) ;;;
  w <- get ;;
  modify (upd_cmd cmd (cobra.SetVersionTemplate
                         (version_template (Name (ID (setupConfig (app w))))))) ;;;
  w <- get ;;
  modify (upd_Config (set_Log (cp (DefaultLoggingConfig (setupConfig (app w)))))) ;;;
  w <- get ;;
  modify (upd_Config (set_Dev (cp (DefaultDevelopmentConfig (setupConfig (app w)))))) ;;;
  w <- get ;;
  postConstructs_range (postConstructs (setupConfig (app w))) ;;;
  setupCommand cmd cfgs.

Definition SetupCommand (cmd : cmdptr) (cfgs : list any) : M cmdptr :=
  setupCommand cmd cfgs.

Definition SetupRootCommand (cmd : cmdptr) (cfgs : list any) : M cmdptr :=
  modify (fun w => set_app (set_root (Some cmd) (app w)) w) ;;;
  setupRootCommand cmd cfgs.

End Loader.

(** ** The event-loop driver *)

(** The deferred calls that are pending when the [switch] is left, after
    the effect of evaluating their receivers: [profile.Start(mode)] runs
    at the [defer] statement, its [Stop()] when [run] is left. *)
Definition run_profile (dev : option DevelopmentConfig) : M (list Event) :=
  match dev with
  | Some d =>
      match Dev_Profile d with
      | ProfileCPU => emit (EvProfileStart CPUProfile) ;;; ret [EvProfileStop CPUProfile]
      | ProfileMem => emit (EvProfileStart MemProfile) ;;; ret [EvProfileStop MemProfile]
      | ProfileOther _ => ret []
      end
  | None => ret []
  end.

Definition run (ctx : nat) (errs : nat) : M exit :=
  w <- get ;;
  deferred <- run_profile (Dev (StConfig (state (app w)))) ;;
  w <- get ;;
  r <- eventloop ctx
         (Nested (StLogger (state (app w))) ["component"; "eventloop"])
         (Subscription (state (app w)))
         errs
         (UIs (state (app w))) ;;
  emits deferred ;;;
  ret r.

(** ** Notions used to state the properties *)

(** [all_ok steps w]: every step, run in order from [w], returns [nil];
    the result is the store and the events after the last one. *)
Fixpoint all_ok (steps : list (M (option error))) (w : World)
  : option (World * list Event) :=
  match steps with
  | [] => Some (w, [])
  | step :: rest =>
      let r := step w in
      match val r with
      | Some _ => None
      | None =>
          match all_ok rest (world r) with
          | Some (w', es) => Some (w', evs r ++ es)
          | None => None
          end
      end
  end.

(** What the loader does for a list of targets, step by step. *)
Definition load_steps (cfg : FangsConfig) (cmd : cmdptr) (targets : list any)
  : list (M (option error)) :=
  flat_map (fun t => [populate cfg cmd t; run_hook (post_load_hook t)]) targets.

(** What a load started by [Setup] does before the initializers run:
    it loads the core configuration, populates the application and, in
    the application's [PostLoad], builds the resources. *)
Definition before_initializers (cfg : FangsConfig) (cmd : cmdptr)
  : list (M (option error)) :=
  [ populate cfg cmd (Some DCore);
    run_hook corePostLoad;
    populate cfg cmd (Some DApp);
    (w <- get ;; state_setup (setupConfig (app w))) ].

Definition non_nil (v : any) : bool :=
  match v with Some _ => true | None => false end.

(** The load list in the words of the specification: the core
    configuration, then the application when resources are enabled, then
    the caller's configurations that are not nil, in their order. *)
Definition spec_load_list (withResources : bool) (cfgs : list any) : list any :=
  [Some DCore] ++ (if withResources then [Some DApp] else []) ++ filter non_nil cfgs.

(** The values of a list without its nil entries. *)
Fixpoint somes (cfgs : list any) : list dyn :=
  match cfgs with
  | [] => []
  | Some d :: rest => d :: somes rest
  | None :: rest => somes rest
  end.

(** The trimmed texts that contribute to the configuration dump. *)
Definition contributions (w : World) (cfgs : list any) : list string :=
  filter has_content (map (fun d => TrimSpace (rendering w d)) (somes cfgs)).

(** Each text followed by a newline. *)
Fixpoint lines (texts : list string) : string :=
  match texts with
  | [] => EmptyString
  | t :: rest => t +++ nl +++ lines rest
  end.

(** [SetupRootCommand] up to, and without, its final call of
    [setupCommand]: the store it leaves is the one the command is bound in. *)
Definition root_prelude (cmd : cmdptr) : M unit :=
  modify (fun w => set_app (set_root (Some cmd) (app w)) w) ;;;
  w <- get ;;
  (if negb (HasPrefix (cobra.Use (cmds w cmd)) (Name (ID (setupConfig (app w)))))
   then modify (upd_cmd cmd (cobra.set_Use (Name (ID (setupConfig (app w))))))
   else ret tt) ;;;
  w <- get ;;
  modify (upd_cmd cmd (cobra.set_Version (Version (ID (setupConfig (app w)))))) ;;;
  w <- get ;;
  modify (upd_cmd cmd (cobra.SetVersionTemplate
                         (version_template (Name (ID (setupConfig (app w))))))) ;;;
  w <- get ;;
  modify (upd_Config (set_Log (cp (DefaultLoggingConfig (setupConfig (app w)))))) ;;;
  w <- get ;;
  modify (upd_Config (set_Dev (cp (DefaultDevelopmentConfig (setupConfig (app w)))))) ;;;
  w <- get ;;
  postConstructs_range (postConstructs (setupConfig (app w))).

(** A post-construction hook that leaves alone what [setupRootCommand]
    has just written on the command, and the identity of the application. *)
Definition keeps_identity (cmd : cmdptr) (pc : funcptr) : Prop :=
  forall w : World,
    let w' := world (postConstruct pc w) in
    cobra.Use (cmds w' cmd) = cobra.Use (cmds w cmd) /\
    cobra.Version (cmds w' cmd) = cobra.Version (cmds w cmd) /\
    cobra.versionTemplate (cmds w' cmd) = cobra.versionTemplate (cmds w cmd) /\
    ID (setupConfig (app w')) = ID (setupConfig (app w)).

(** The profiling events around the event loop for a development
    configuration. *)
Definition session (dev : option DevelopmentConfig) : option profile_mode :=
  match dev with
  | Some d =>
      match Dev_Profile d with
      | ProfileCPU => Some CPUProfile
      | ProfileMem => Some MemProfile
      | ProfileOther _ => None
      end
  | None => None
  end.

Definition is_stop (e : Event) : bool :=
  match e with EvProfileStop _ => true | _ => false end.

Definition is_start (e : Event) : bool :=
  match e with EvProfileStart _ => true | _ => false end.

End Clio.

(** ** The goroutine of [async]

    [async] makes an unbuffered channel, starts a goroutine and returns
    the channel as receive-only, so the goroutine is the only sender and
    the only one that closes.  The goroutine calls the body, sends the
    error if there is one, and closes the channel in a deferred call,
    which also runs when the body panics.  A send on the unbuffered
    channel completes only when a receiver takes the value: the event
    loop receives from the channel while it runs, and once it has
    returned nobody does, so a goroutine that reaches the send after that
    stays there. *)

Module Async.

(** Where the goroutine is. *)
Inductive pc : Type :=
| Calling
| Sending (err : error)
| Leaving (panicking : bool)
| Done (panicked : bool).

(** The goroutine, the channel [errs], and whether the receiver of the
    channel is still receiving. *)
Record goroutine : Type := { at_pc : pc; closed : bool; receiving : bool }.

Inductive action : Type :=
| Body (r : exit)
| Send (err : error)
| Close
| Panic (msg : string)
| Leave.

(** After [errs := make(chan error)] and the [go] statement. *)
Definition start : goroutine :=
  {| at_pc := Calling; closed := false; receiving := true |}.

Definition after_body (r : exit) : pc :=
  match r with
  | Returns (Some err) => Sending err
  | Returns None => Leaving false
  | Panics _ => Leaving true
  end.

(** One step of the goroutine; [r] is what the body does when it is
    called.  At the send there is no step when nobody receives. *)
Definition next (r : exit) (g : goroutine) : option (action * goroutine) :=
  match at_pc g with
  | Calling =>
      Some (Body r,
            {| at_pc := after_body r; closed := closed g; receiving := receiving g |})
  | Sending err =>
      if closed g
      then Some (Panic "send on closed channel",
                 {| at_pc := Leaving true; closed := closed g; receiving := receiving g |})
      else if receiving g
      then Some (Send err,
                 {| at_pc := Leaving false; closed := closed g; receiving := receiving g |})
      else None
  | Leaving p =>
      if closed g
      then Some (Panic "close of closed channel",
                 {| at_pc := Done true; closed := closed g; receiving := receiving g |})
      else Some (Close, {| at_pc := Done p; closed := true; receiving := receiving g |})
  | Done _ => None
  end.

(** The step of the receiver: it stops receiving (the event loop
    returns), once and for good. *)
Definition leave (g : goroutine) : option (action * goroutine) :=
  if receiving g
  then Some (Leave, {| at_pc := at_pc g; closed := closed g; receiving := false |})
  else None.

Definition step (g : goroutine) (a : action) (g' : goroutine) : Prop :=
  (exists r, next r g = Some (a, g')) \/ leave g = Some (a, g').

Inductive exec : goroutine -> list action -> goroutine -> Prop :=
| exec_refl g : exec g [] g
| exec_step g a g1 tr g2 : step g a g1 -> exec g1 tr g2 -> exec g (a :: tr) g2.

Definition finished (g : goroutine) : bool :=
  match at_pc g with Done _ => true | _ => false end.





Definition is_leave (a : action) : bool :=
  match a with Leave => true | _ => false end.


(** The actions of the goroutine itself in a run. *)
Definition own (tr : list action) : list action :=
  filter (fun a => negb (is_leave a)) tr.


(** Every position the goroutine can be in, with its own actions that
    led there and the state of the channel. *)
Inductive reached : list action -> pc -> bool -> Prop :=
| at_start : reached [] Calling false
| at_send r err :
    r = Returns (Some err) ->
    reached [Body r] (Sending err) false
| at_defer r p :
    after_body r = Leaving p ->
    reached [Body r] (Leaving p) false
| at_defer_sent err :
    reached [Body (Returns (Some err)); Send err] (Leaving false) false
| at_done r p :
    after_body r = Leaving p ->
    reached [Body r; Close] (Done p) true
| at_done_sent err :
    reached [Body (Returns (Some err)); Send err; Close] (Done false) true.

End Async.

(** ** A small application, for running the model *)

Module Demo.

Definition types : Types :=
  {| LoggingConfig := string; FangsConfig := unit; Env := unit |}.

#[local] Existing Instance types.

Definition boom : error := errorString "boom".

(** Three initializers: the first succeeds, the second fails, the third
    would leave a mark. *)
Definition demo_initializer (p : funcptr) : M (option error) :=
  match p with
  | 1 => emit (EvExtern "initializer 1") ;;; ret None
  | 2 => emit (EvExtern "initializer 2") ;;; ret (Some boom)
  | _ => emit (EvExtern "initializer 3") ;;; ret None
  end.

Definition demo_yaml (w : World) (d : dyn) : string + error :=
  match d with
  | DObj 1 => inl ("foo: bar" +++ nl)
  | DObj 2 => inr (errorString "cannot marshal")
  | _ => inl ("{}" +++ nl)
  end.

Definition demo_Stringer (w : World) (d : dyn) : option string :=
  match d with
  | DObj 3 => Some "  three  "
  | _ => None
  end.

Definition collaborators : Collaborators :=
  {| initializer := demo_initializer;
     postConstruct := fun p => emit (EvExtern "post-construct");
     userPreRunE := fun f cmd args => emit (EvExtern "original hook") ;;; ret None;
     state_setup := fun cfg => emit (EvExtern "resources") ;;; ret None;
     eventloop := fun ctx log sub errs uis =>
                    emit (EvExtern "eventloop") ;;; ret (Returns (Some boom));
     Stringer := demo_Stringer;
     yaml_Marshal := demo_yaml;
     Magenta_Sprint := fun s => s;
     indent_String := fun prefix s => prefix +++ s;
     populate := fun cfg cmd t => ret None;
     corePostLoad := None;
     objPostLoad := fun p => None |}.

#[local] Existing Instance collaborators.

Definition identity (name version : string) : Identification :=
  {| Name := name; Version := version |}.

Definition config (name version : string) : SetupConfig :=
  {| ID := identity name version;
     DefaultLoggingConfig := Some "info";
     DefaultDevelopmentConfig := Some {| Dev_Profile := ProfileCPU |};
     Initializers := [1; 2; 3];
     postConstructs := [7; 8];
     SetupFangsConfig := tt |}.

Definition command : cobra.Command :=
  {| cobra.Use := "serve";
     cobra.Version := EmptyString;
     cobra.versionTemplate := EmptyString;
     cobra.PreRunE := Some (cobra.UserPreRun 5);
     cobra.RunE := Some (cobra.UserRun 6);
     cobra.SilenceUsage := false;
     cobra.SilenceErrors := false;
     cobra.ctx := 0 |}.

Definition fresh_state : State :=
  {| StConfig := {| Log := None; Dev := None; FromCommands := [] |};
     StLogger := LoggerHandle 0;
     Subscription := 0;
     UIs := [];
     RedactStore := Some 0;
     Bus := None |}.

Definition w0 : World :=
  {| app := {| root := None; setupConfig := config "tool" "1.2.3"; state := fresh_state |};
     cmds := fun _ => command;
     env := tt |}.

End Demo.

(** ** Notions for [strings.TrimSpace] *)

(** [Runs ps l]: the bytes [l] are a sequence of runes of [ps]. *)
Inductive Runs (ps : list (list ascii)) : list ascii -> Prop :=
| Runs_nil : Runs ps []
| Runs_cons p l : In p ps -> Runs ps l -> Runs ps (p ++ l).

(** ** Notions for the post-construction hooks *)

Section HookOrder.

Context {T : Types} {C : Collaborators}.

(** Calling the hooks of a list one after the other, from the first to
    the last, each on the store that the one before it left: the store
    after the last one, and the events of all of them in that order. *)
Definition hooks_in_order (pcs : list funcptr) (w : World) : World * list Event :=
  fold_left
    (fun acc pc =>
       let r := postConstruct pc (fst acc) in
       (world r, snd acc ++ evs r))
    pcs (w, []).

End HookOrder.

(** ** The configuration summary *)

(** [strings.HasSuffix(s, suffix)]:
    [len(s) >= len(suffix) && s[len(s)-len(suffix):] == suffix]. *)
Definition HasSuffix (s suffix : string) : bool :=
  Nat.leb (String.length suffix) (String.length s)
  && String.eqb (substring (String.length s - String.length suffix)
                           (String.length suffix) s) suffix.

(** [strings.TrimSuffix(s, suffix)]. *)
Definition TrimSuffix (s suffix : string) : string :=
  if HasSuffix s suffix
  then substring 0 (String.length s - String.length suffix) s
  else s.

(** [fangs.SummarizeCommand] and [fangs.SummarizeLocations]. *)
Class Summaries {T : Types} : Type := {
  SummarizeCommand : FangsConfig -> cmdptr -> list any -> World -> string;
  SummarizeLocations : FangsConfig -> list string
}.

Section Summary.

Context {T : Types} {C : Collaborators} {S : Summaries}.

(** The loop of [summarizeConfig] over the search locations. *)
Fixpoint summarizeConfig_range (locations : list string) (summary : string) : string :=
  match locations with
  | [] => summary
  | f :: rest =>
      if negb (HasSuffix f ".yaml")
      then summarizeConfig_range rest summary
      else summarizeConfig_range rest (summary +++ "  - " +++ f +++ nl)
  end.

Definition summarizeConfig (cmd : cmdptr) (w : World) : string :=
  let cfg := SetupFangsConfig (setupConfig (app w)) in
  let summary := "Application Configuration:" +++ nl +++ nl in
  let summary :=
    summary +++
    indent_String "  "
      (TrimSuffix
         (SummarizeCommand cfg cmd (FromCommands (StConfig (state (app w)))) w) nl) in
  let summary := summary +++ nl in
  let summary := summary +++ "Config Search Locations:" +++ nl in
  TrimSpace (summarizeConfig_range (SummarizeLocations cfg) summary).

(** The part of the summary before the search locations. *)
Definition summary_head (cmd : cmdptr) (fromCommands : list any) (w : World) : string :=
  "Application Configuration:" +++ nl +++ nl +++
  indent_String "  "
    (TrimSuffix
       (SummarizeCommand (SetupFangsConfig (setupConfig (app w))) cmd fromCommands w) nl)
  +++ nl +++ "Config Search Locations:" +++ nl.

End Summary.

(** ** More notions for the goroutine of [async] *)

Module AsyncMore.

Definition is_panic (a : Async.action) : bool :=
  match a with Async.Panic _ => true | _ => false end.

Definition is_body (a : Async.action) : bool :=
  match a with Async.Body _ => true | _ => false end.

End AsyncMore.

(** ** A second small application: its resources cannot be built *)

Module Demo2.

#[local] Existing Instance Demo.types.

Definition no_logger : error := errorString "no logger".

Definition collaborators : Collaborators :=
  {| initializer := Demo.demo_initializer;
     postConstruct := fun p => emit (EvExtern "post-construct");
     userPreRunE := fun f cmd args => emit (EvExtern "original hook") ;;; ret None;
     state_setup := fun cfg => emit (EvExtern "resources") ;;; ret (Some no_logger);
     eventloop := fun ctx log sub errs uis => ret (Returns None);
     Stringer := Demo.demo_Stringer;
     yaml_Marshal := Demo.demo_yaml;
     Magenta_Sprint := fun s => s;
     indent_String := fun prefix s => prefix +++ s;
     populate := fun cfg cmd t => ret None;
     corePostLoad := None;
     objPostLoad := fun p => None |}.

(** An application whose two initializers both succeed. *)
Definition w_ok : World :=
  {| app := {| root := None;
               setupConfig :=
                 {| ID := Demo.identity "tool" EmptyString;
                    DefaultLoggingConfig := None;
                    DefaultDevelopmentConfig := None;
                    Initializers := [1; 3];
                    postConstructs := [];
                    SetupFangsConfig := tt |};
               state := Demo.fresh_state |};
     cmds := fun _ => Demo.command;
     env := tt |}.

Definition summaries : Summaries :=
  {| SummarizeCommand := fun cfg cmd cfgs w => "log:" +++ nl +++ "  level: info" +++ nl;
     SummarizeLocations := fun cfg => [".tool.yaml"; ".tool.yml"; "tool/config.yaml"; ".tool.json"] |}.

End Demo2.

(** * Properties *)

(** ** Strings and formatting *)

Lemma is_empty_true s : is_empty s = true <-> s = EmptyString.
Proof. destruct s; simpl; split; congruence. Qed.

Lemma append_nil_r s : s +++ EmptyString = s.
Proof. induction s; simpl; congruence. Qed.

Lemma append_assoc a b c : (a +++ b) +++ c = a +++ b +++ c.
Proof. induction a; simpl; congruence. Qed.

Lemma prefix_append p s : String.prefix p (p +++ s) = true.
Proof.
  induction p as [|c p IH]; simpl.
  - destruct s; reflexivity.
  - destruct (Ascii.ascii_dec c c); [exact IH | congruence].
Qed.

Lemma prefix_refl p : String.prefix p p = true.
Proof. rewrite <- (append_nil_r p) at 2. apply prefix_append. Qed.

(** *** [strings.TrimSpace] removes white space, all of it, and only at the ends *)

Lemma strip_sound p : forall l r, strip p l = Some r -> l = p ++ r.
Proof.
  induction p as [|x p IH]; intros l r H; simpl in *.
  - inversion H. reflexivity.
  - destruct l as [|y l]; [discriminate|].
    destruct (Ascii.eqb x y) eqn:E; [|discriminate].
    apply Ascii.eqb_eq in E. subst y. f_equal. apply IH, H.
Qed.

Lemma strip_complete p r : strip p (p ++ r) = Some r.
Proof.
  induction p as [|x p IH]; simpl; [reflexivity|].
  rewrite Ascii.eqb_refl. exact IH.
Qed.

Lemma strip_any_sound ps : forall l r,
  strip_any ps l = Some r -> exists p, In p ps /\ l = p ++ r.
Proof.
  induction ps as [|p ps IH]; intros l r H; simpl in *; [discriminate|].
  destruct (strip p l) as [r'|] eqn:E.
  - inversion H; subst. exists p. split; [left; reflexivity|].
    apply strip_sound, E.
  - destruct (IH _ _ H) as (q & Hq & Hl). exists q. split; [right; exact Hq | exact Hl].
Qed.

Lemma strip_any_none ps : forall l,
  strip_any ps l = None -> Forall (fun p => forall r, l <> p ++ r) ps.
Proof.
  induction ps as [|p ps IH]; intros l H; simpl in *; [constructor|].
  destruct (strip p l) as [r'|] eqn:E; [discriminate|].
  constructor; [|apply IH, H].
  intros r Hl. subst l. rewrite strip_complete in E. discriminate.
Qed.

Lemma trim_front_spec ps :
  Forall (fun p => p <> []) ps ->
  forall n l, List.length l <= n ->
    exists pre,
      Runs ps pre
      /\ l = pre ++ trim_front ps n l
      /\ strip_any ps (trim_front ps n l) = None.
Proof.
  intros Hne. induction n as [|n IH]; intros l Hl; simpl.
  - destruct l; [|simpl in Hl; lia]. exists []. split; [constructor|].
    split; [reflexivity|].
    clear Hl. induction Hne as [|p ps Hp _ IHne]; simpl; [reflexivity|].
    destruct p; [contradiction Hp; reflexivity | exact IHne].
  - destruct (strip_any ps l) as [r|] eqn:E.
    + destruct (strip_any_sound _ _ _ E) as (p & Hin & Hp).
      assert (Hpn : p <> []) by (rewrite Forall_forall in Hne; apply Hne, Hin).
      assert (Hr : List.length r <= n).
      { subst l. rewrite length_app in Hl. destruct p; [contradiction Hpn; reflexivity|].
        simpl in Hl. lia. }
      destruct (IH r Hr) as (pre & Hruns & Heq & Hnone).
      exists (p ++ pre). split; [constructor; assumption|].
      split; [|exact Hnone]. rewrite <- app_assoc, <- Heq. exact Hp.
    + exists []. split; [constructor|]. split; [reflexivity | exact E].
Qed.

Lemma Runs_app ps a b : Runs ps a -> Runs ps b -> Runs ps (a ++ b).
Proof.
  induction 1 as [|p l Hin Hl IH]; intros Hb; simpl; [exact Hb|].
  rewrite <- app_assoc. constructor; [exact Hin | apply IH, Hb].
Qed.

Lemma Runs_rev ps l : Runs (map (@rev ascii) ps) l -> Runs ps (rev l).
Proof.
  induction 1 as [|p l Hin Hl IH]; simpl; [constructor|].
  rewrite rev_app_distr. apply Runs_app; [exact IH|].
  apply in_map_iff in Hin. destruct Hin as (q & <- & Hq).
  rewrite rev_involutive. rewrite <- (app_nil_r q). constructor; [exact Hq | constructor].
Qed.

Lemma space_runes_nonempty : Forall (fun p : list ascii => p <> []) space_runes.
Proof. unfold space_runes. repeat constructor; discriminate. Qed.

Lemma TrimSpace_spec s :
  exists l r,
    Runs space_runes l /\ Runs space_runes r
    /\ bytes s = l ++ bytes (TrimSpace s) ++ r
    /\ Forall (fun p => forall x, bytes (TrimSpace s) <> p ++ x) space_runes
    /\ Forall (fun p => forall x, bytes (TrimSpace s) <> x ++ p) space_runes.
Proof.
  unfold TrimSpace, of_bytes, bytes. rewrite list_ascii_of_string_of_list_ascii.
  set (b := list_ascii_of_string s).
  destruct (trim_front_spec space_runes space_runes_nonempty (List.length b) b (le_n _))
    as (l & Hl & Hb & Hn).
  fold (TrimLeft b) in Hb, Hn. set (t := TrimLeft b) in *.
  assert (Hrne : Forall (fun p : list ascii => p <> []) (map (@rev ascii) space_runes)).
  { rewrite Forall_forall. intros p Hp. apply in_map_iff in Hp.
    destruct Hp as (q & <- & Hq). intros E.
    pose proof space_runes_nonempty as Hne. rewrite Forall_forall in Hne.
    apply (Hne q Hq). rewrite <- (rev_involutive q), E. reflexivity. }
  destruct (trim_front_spec _ Hrne (List.length t) (rev t)) as (r' & Hr & Ht & Hrn).
  { rewrite length_rev. apply le_n. }
  fold (TrimRight t) in *.
  assert (Ht' : t = TrimRight t ++ rev r').
  { unfold TrimRight. rewrite <- rev_app_distr, <- Ht, rev_involutive. reflexivity. }
  exists l, (rev r'). split; [exact Hl|]. split; [apply Runs_rev, Hr|].
  split; [rewrite <- Ht'; exact Hb|]. split.
  - apply strip_any_none in Hn. rewrite Forall_forall in *.
    intros p Hp x E. apply (Hn p Hp (x ++ rev r')).
    rewrite Ht', E, <- app_assoc. reflexivity.
  - apply strip_any_none in Hrn. rewrite Forall_forall in *.
    intros p Hp x E. apply (Hrn (rev p) (in_map _ _ _ Hp) (rev x)).
    unfold TrimRight in E.
    rewrite <- rev_app_distr, <- E, rev_involutive. reflexivity.
Qed.

(** The error built by [loadConfigs] is never the error it wraps: its
    text is longer. *)
Lemma Errorf_invalid_fresh (e : error) : Errorf_invalid e <> e.
Proof.
  intros H. apply (f_equal (fun x => String.length (Error x))) in H.
  unfold Errorf_invalid in H. simpl in H. lia.
Qed.

Lemma Errorf_invalid_Sprintf (e : error) :
  Fmt.Sprintf "invalid application config: %v" [Error e]
  = Some (Error (Errorf_invalid e)).
Proof.
  unfold Errorf_invalid. cbn. rewrite append_nil_r. reflexivity.
Qed.

Lemma Sprintf_plus_v_Sprintf (e : error) :
  Fmt.Sprintf "%+v" [Error e] = Some (Sprintf_plus_v e).
Proof. unfold Sprintf_plus_v. cbn. rewrite append_nil_r. reflexivity. Qed.

Lemma version_template_Sprintf (name : string) :
  Fmt.Sprintf ("%s {{.Version}}" +++ nl) [name] = Some (version_template name).
Proof. reflexivity. Qed.

(** A format without [%] and without operands is printed as it is. *)
Lemma Sprintf_no_percent s :
  Fmt.no_percent s = true -> Fmt.Sprintf s [] = Some s.
Proof.
  unfold Fmt.Sprintf. induction s as [|c s IH]; simpl; intros H.
  - reflexivity.
  - apply andb_prop in H. destruct H as [Hc Hs].
    destruct (Ascii.eqb c Fmt.percent); [discriminate|].
    rewrite (IH Hs). reflexivity.
Qed.

(** The two-operand format of [logVersion], for every name and version. *)
Lemma Sprintf_version name version :
  Fmt.Sprintf "%s version: %+v" [name; version]
  = Some (name +++ " version: " +++ version).
Proof. cbn. rewrite append_nil_r. reflexivity. Qed.

Section Facts.

Context {T : Types} {C : Collaborators}.

(** ** The monad *)

Lemma bind_world {A B} (m : M A) (f : A -> M B) w :
  world (bind m f w) = world (f (val (m w)) (world (m w))).
Proof. reflexivity. Qed.

(** ** The initializer chain *)

Lemma runInitializers_range_stops pre f post :
  forall w w1 evs1 e,
    all_ok (map initializer pre) w = Some (w1, evs1) ->
    val (initializer f w1) = Some e ->
    runInitializers_range (pre ++ f :: post) w
    = mkRes (Some e) (world (initializer f w1)) (evs1 ++ evs (initializer f w1)).
Proof.
  induction pre as [|p pre IH]; intros w w1 evs1 e Hok Hf; simpl in *.
  - inversion Hok; subst. unfold bind. rewrite Hf. simpl.
    rewrite app_nil_r. reflexivity.
  - destruct (val (initializer p w)) eqn:Hp; [discriminate|].
    destruct (all_ok (map initializer pre) (world (initializer p w)))
      as [[w' es]|] eqn:Hrest; [|discriminate].
    inversion Hok; subst. unfold bind at 1. rewrite Hp.
    rewrite (IH _ _ _ _ Hrest Hf). simpl. rewrite app_assoc. reflexivity.
Qed.

Lemma runInitializers_range_all inits :
  forall w w1 evs1,
    all_ok (map initializer inits) w = Some (w1, evs1) ->
    runInitializers_range inits w = mkRes None w1 evs1.
Proof.
  induction inits as [|p inits IH]; intros w w1 evs1 Hok; simpl in *.
  - inversion Hok; subst. reflexivity.
  - destruct (val (initializer p w)) eqn:Hp; [discriminate|].
    destruct (all_ok (map initializer inits) (world (initializer p w)))
      as [[w' es]|] eqn:Hrest; [|discriminate].
    inversion Hok; subst. unfold bind at 1. rewrite Hp.
    rewrite (IH _ _ _ Hrest). reflexivity.
Qed.

(** ** The load list *)

Lemma nonNil_range_filter a : forall ret,
  nonNil_range a ret = ret ++ filter non_nil a.
Proof.
  induction a as [|v a IH]; intros ret; simpl.
  - rewrite app_nil_r. reflexivity.
  - destruct v; simpl; rewrite IH.
    + rewrite <- app_assoc. reflexivity.
    + reflexivity.
Qed.

Lemma nonNil_filter a : nonNil a = filter non_nil a.
Proof. unfold nonNil. rewrite nonNil_range_filter. reflexivity. Qed.

Lemma load_list_spec (withResources : bool) (cfgs : list any) :
  nonNil (([Some DCore] ++ (if withResources then [Some DApp] else [])) ++ cfgs)
  = spec_load_list withResources cfgs.
Proof.
  rewrite nonNil_filter. unfold spec_load_list.
  destruct withResources; reflexivity.
Qed.

Lemma loadConfigs_targets {L : Loader} cmd (withResources : bool) cfgs w :
  loadConfigs cmd withResources cfgs w
  = let targets := spec_load_list withResources cfgs in
    let r := Load (SetupFangsConfig (setupConfig (app w))) cmd targets w in
    mkRes (match val r with
           | Some e => ([], Some (Errorf_invalid e))
           | None => (targets, None)
           end) (world r) (evs r).
Proof.
  unfold loadConfigs. cbv zeta.
  replace (nonNil ((if withResources then [Some DCore] ++ [Some DApp] else [Some DCore]) ++ cfgs))
    with (spec_load_list withResources cfgs)
    by (rewrite <- load_list_spec; destruct withResources; reflexivity).
  unfold bind, get. simpl.
  destruct (val (Load _ cmd _ w)); simpl; rewrite app_nil_r; reflexivity.
Qed.

Lemma somes_filter_non_nil cfgs : somes (filter non_nil cfgs) = somes cfgs.
Proof.
  induction cfgs as [|[d|] cfgs IH]; simpl; congruence.
Qed.

Lemma filter_non_nil_Forall cfgs : Forall (fun v : any => v <> None) (filter non_nil cfgs).
Proof.
  induction cfgs as [|[d|] cfgs IH]; simpl; auto.
  constructor; [discriminate | exact IH].
Qed.

(** C6. [loadConfigs] calls the loader with the list made of the core
    configuration, then the application when resources are enabled, then
    the caller's configurations in their order, nil entries removed: the
    list that the code builds with [append] and [nonNil] is the list of
    the specification, it has no nil entry, its values are the core
    configuration, the application and the caller's non-nil values in
    order, and it is the argument of [Load] (and the first result when the
    load succeeds). *)
Theorem loadConfigs_load_list (L : Loader) cmd (withResources : bool) cfgs w :
  let targets := spec_load_list withResources cfgs in
  let r := Load (SetupFangsConfig (setupConfig (app w))) cmd targets w in
  nonNil (([Some DCore] ++ (if withResources then [Some DApp] else [])) ++ cfgs) = targets
  /\ Forall (fun v : any => v <> None) targets
  /\ somes targets = [DCore] ++ (if withResources then [DApp] else []) ++ somes cfgs
  /\ loadConfigs cmd withResources cfgs w
     = mkRes (match val r with
              | Some e => ([], Some (Errorf_invalid e))
              | None => (targets, None)
              end) (world r) (evs r).
Proof.
  cbv zeta. split; [apply load_list_spec|]. split; [|split].
  - unfold spec_load_list. constructor; [discriminate|].
    destruct withResources; simpl.
    + constructor; [discriminate | apply filter_non_nil_Forall].
    + apply filter_non_nil_Forall.
  - unfold spec_load_list. destruct withResources; simpl;
      rewrite somes_filter_non_nil; reflexivity.
  - apply loadConfigs_targets.
Qed.

(** ** Setup *)

(** The model of the loader succeeds exactly when every step of the load
    does, and then it has run them all, in order. *)
Lemma fangs_Load_steps cfg cmd targets : forall w,
  let r := fangs_Load cfg cmd targets w in
  match val r with
  | None => all_ok (load_steps cfg cmd targets) w = Some (world r, evs r)
  | Some _ => all_ok (load_steps cfg cmd targets) w = None
  end.
Proof.
  induction targets as [|t targets IH]; intros w; simpl.
  - reflexivity.
  - destruct (val (populate cfg cmd t w)) eqn:Hp; simpl; [reflexivity|].
    destruct (val (run_hook (post_load_hook t) (world (populate cfg cmd t w)))) eqn:Hh;
      simpl; [reflexivity|].
    specialize (IH (world (run_hook (post_load_hook t) (world (populate cfg cmd t w))))).
    simpl in IH.
    destruct (val (fangs_Load cfg cmd targets _)) eqn:Hl; rewrite IH; reflexivity.
Qed.

Lemma Setup_after_load {L : Loader} cfgs cmd args w :
  let targets := spec_load_list true cfgs in
  let r := Load (SetupFangsConfig (setupConfig (app w))) cmd targets w in
  let w' := world r in
  let log := StLogger (state (app w')) in
  Setup cfgs cmd args w
  = match val r with
    | Some e => mkRes (Some (Errorf_invalid e)) w' (evs r)
    | None =>
        mkRes None w'
          (evs r ++ [version_record (setupConfig (app w')) log;
                     config_record log (logConfiguration_range w' targets EmptyString)])
    end.
Proof.
  cbv zeta. unfold Setup. unfold bind at 1. rewrite loadConfigs_targets. cbv zeta.
  simpl. destruct (val (Load _ cmd _ w)); simpl.
  - rewrite app_nil_r. reflexivity.
  - reflexivity.
Qed.

(** C2. Whatever the loader is, the closure returned by [Setup] first
    calls it on the load list; when the load fails, the result is the
    error with the text of the failure behind the prefix "invalid
    application config" and the events are those of the load alone, so
    neither log record is emitted; when it succeeds, the events are those
    of the load followed by exactly the version record and then the
    configuration record.  For the loader of the specification, a
    successful load has run every step of every target (populating it and
    calling its post-load hook) with success, in list order, before those
    records. *)
Theorem Setup_logs_after_load (L : Loader) cfgs cmd args w :
  let targets := spec_load_list true cfgs in
  let cfg := SetupFangsConfig (setupConfig (app w)) in
  let r := Load cfg cmd targets w in
  let w' := world r in
  let log := StLogger (state (app w')) in
  let rf := fangs_Load cfg cmd targets w in
  match val r with
  | Some e =>
      Setup cfgs cmd args w = mkRes (Some (Errorf_invalid e)) w' (evs r)
      /\ Error (Errorf_invalid e) = "invalid application config: " +++ Error e
      /\ HasPrefix (Error (Errorf_invalid e)) "invalid application config" = true
  | None =>
      Setup cfgs cmd args w
      = mkRes None w'
          (evs r ++ [version_record (setupConfig (app w')) log;
                     config_record log (logConfiguration_range w' targets EmptyString)])
  end
  /\ match val rf with
     | Some e =>
         evs (Setup (L := fangs) cfgs cmd args w) = evs rf
         /\ all_ok (load_steps cfg cmd targets) w = None
     | None =>
         all_ok (load_steps cfg cmd targets) w = Some (world rf, evs rf)
         /\ exists version config,
             evs (Setup (L := fangs) cfgs cmd args w) = evs rf ++ [version; config]
             /\ is_log version = true /\ is_log config = true
     end.
Proof.
  cbv zeta. split.
  - rewrite Setup_after_load. cbv zeta.
    destruct (val (Load _ cmd _ w)); [|reflexivity].
    split; [reflexivity|]. split; [reflexivity|].
    unfold HasPrefix, Errorf_invalid, invalid_prefix. simpl. reflexivity.
  - pose proof (fangs_Load_steps (SetupFangsConfig (setupConfig (app w))) cmd
                  (spec_load_list true cfgs) w) as Hs.
    cbv zeta in Hs. rewrite (Setup_after_load (L := fangs)). cbv zeta.
    change (@Load T fangs) with fangs_Load.
    destruct (val (fangs_Load _ cmd _ w)).
    + split; [reflexivity | exact Hs].
    + split; [exact Hs|]. eexists. eexists. split; [reflexivity|].
      split.
      * unfold version_record. destruct (is_empty _); reflexivity.
      * unfold config_record. destruct (negb _); reflexivity.
Qed.

Lemma all_ok_cons step rest w w' es :
  all_ok (step :: rest) w = Some (w', es) ->
  val (step w) = None
  /\ exists es', all_ok rest (world (step w)) = Some (w', es')
                 /\ es = evs (step w) ++ es'.
Proof.
  simpl. destruct (val (step w)); [discriminate|].
  destruct (all_ok rest (world (step w))) as [[w2 es2]|]; [|discriminate].
  intros H. inversion H; subst. split; [reflexivity|]. eauto.
Qed.

Lemma step_ok (m k : M (option error)) w :
  val (m w) = None ->
  (err <- m ;; match err with Some e => ret (Some e) | None => k end) w
  = mkRes (val (k (world (m w)))) (world (k (world (m w))))
          (evs (m w) ++ evs (k (world (m w)))).
Proof. intros H. unfold bind. rewrite H. reflexivity. Qed.

Lemma step_err (m k : M (option error)) w e :
  val (m w) = Some e ->
  (err <- m ;; match err with Some e => ret (Some e) | None => k end) w
  = mkRes (Some e) (world (m w)) (evs (m w)).
Proof. intros H. unfold bind. rewrite H. simpl. rewrite app_nil_r. reflexivity. Qed.

Lemma PostLoad_stops pre f post e w w1 evs1 wA :
  val (state_setup (setupConfig (app wA)) wA) = None ->
  world (state_setup (setupConfig (app wA)) wA) = w ->
  Initializers (setupConfig (app w)) = pre ++ f :: post ->
  all_ok (map initializer pre) w = Some (w1, evs1) ->
  val (initializer f w1) = Some e ->
  PostLoad wA
  = mkRes (Some e) (world (initializer f w1))
      (evs (state_setup (setupConfig (app wA)) wA) ++ evs1 ++ evs (initializer f w1)).
Proof.
  intros Hs Hw Hi Hok Hf. unfold PostLoad, runInitializers, bind, get. simpl.
  rewrite Hs, Hw. simpl. rewrite Hi.
  rewrite (runInitializers_range_stops pre f post _ _ _ _ Hok Hf). simpl.
  reflexivity.
Qed.

Lemma fangs_Load_stops_in_PostLoad cfg cmd rest pre f post e w0 w ev0 w1 evs1 :
  all_ok (before_initializers cfg cmd) w0 = Some (w, ev0) ->
  Initializers (setupConfig (app w)) = pre ++ f :: post ->
  all_ok (map initializer pre) w = Some (w1, evs1) ->
  val (initializer f w1) = Some e ->
  fangs_Load cfg cmd (Some DCore :: Some DApp :: rest) w0
  = mkRes (Some e) (world (initializer f w1)) (ev0 ++ evs1 ++ evs (initializer f w1)).
Proof.
  intros H0 Hi Hok Hf. unfold before_initializers in H0.
  apply all_ok_cons in H0. destruct H0 as [H1 [es1 [H0 E1]]].
  apply all_ok_cons in H0. destruct H0 as [H2 [es2 [H0 E2]]].
  apply all_ok_cons in H0. destruct H0 as [H3 [es3 [H0 E3]]].
  apply all_ok_cons in H0. destruct H0 as [H4 [es4 [H0 E4]]].
  simpl in H0. inversion H0; subst; clear H0.
  set (wa := world (populate cfg cmd (Some DCore) w0)) in *.
  set (wb := world (run_hook corePostLoad wa)) in *.
  set (wc := world (populate cfg cmd (Some DApp) wb)) in *.
  simpl in H4, Hi, Hok.
  cbn [fangs_Load post_load_hook].
  rewrite (step_ok _ _ _ H1). fold wa.
  rewrite (step_ok _ _ _ H2). fold wb.
  rewrite (step_ok _ _ _ H3). fold wc.
  assert (HP : val (PostLoad wc) = Some e /\ world (PostLoad wc) = world (initializer f w1)
               /\ evs (PostLoad wc) = evs (state_setup (setupConfig (app wc)) wc) ++ evs1 ++ evs (initializer f w1)).
  { rewrite (PostLoad_stops pre f post e _ w1 evs1 wc H4 eq_refl Hi Hok Hf). auto. }
  destruct HP as [Pv [Pw Pe]].
  change (run_hook (Some PostLoad)) with PostLoad.
  rewrite (step_err _ _ _ _ Pv). cbn [val world evs]. rewrite Pw, Pe.
  f_equal. simpl. rewrite app_nil_r, <- !app_assoc. reflexivity.
Qed.

(** C1 (amended).  The initializers run in registration order and the
    chain stops at the first one that returns an error: when the
    initializers before [f] all return nil and [f] returns [e], then
    whatever is registered after [f], [runInitializers] returns [e] itself,
    with the store that [f] left and the events of the initializers up to
    [f] only.  The application's [PostLoad] returns [e] itself as well.
    [Setup] does not: when the load reaches the initializers, it returns
    a new error whose text is "invalid application config: " followed by
    the text of [e], and it emits no log record. *)
Theorem initializers_fail_fast pre f post e w w1 evs1 :
  Initializers (setupConfig (app w)) = pre ++ f :: post ->
  all_ok (map initializer pre) w = Some (w1, evs1) ->
  val (initializer f w1) = Some e ->
  let rf := initializer f w1 in
  runInitializers w = mkRes (Some e) (world rf) (evs1 ++ evs rf)
  /\ (forall wA,
        val (state_setup (setupConfig (app wA)) wA) = None ->
        world (state_setup (setupConfig (app wA)) wA) = w ->
        PostLoad wA
        = mkRes (Some e) (world rf)
            (evs (state_setup (setupConfig (app wA)) wA) ++ evs1 ++ evs rf))
  /\ (forall cfgs cmd args w0 ev0,
        all_ok (before_initializers (SetupFangsConfig (setupConfig (app w0))) cmd) w0
        = Some (w, ev0) ->
        Setup (L := fangs) cfgs cmd args w0
        = mkRes (Some (Errorf_invalid e)) (world rf) (ev0 ++ evs1 ++ evs rf))
  /\ Error (Errorf_invalid e) = "invalid application config: " +++ Error e
  /\ Errorf_invalid e <> e.
Proof.
  intros Hi Hok Hf rf. split; [|split; [|split; [|split]]].
  - unfold runInitializers, bind, get. simpl. rewrite Hi.
    rewrite (runInitializers_range_stops pre f post _ _ _ _ Hok Hf). reflexivity.
  - intros wA Hs Hw. apply (PostLoad_stops pre f post e w w1 evs1 wA Hs Hw Hi Hok Hf).
  - intros cfgs cmd args w0 ev0 H0.
    rewrite (Setup_after_load (L := fangs)). cbv zeta.
    change (@Load T fangs) with fangs_Load.
    change (spec_load_list true cfgs)
      with (Some DCore :: Some DApp :: filter non_nil cfgs).
    rewrite (fangs_Load_stops_in_PostLoad _ cmd _ pre f post e w0 w ev0 w1 evs1 H0 Hi Hok Hf).
    reflexivity.
  - reflexivity.
  - apply Errorf_invalid_fresh.
Qed.

(** ** Binding *)

Lemma bind_assoc {A B D} (m : M A) (f : A -> M B) (g : B -> M D) w :
  bind (bind m f) g w = bind m (fun x => bind (f x) g) w.
Proof. unfold bind. simpl. rewrite app_assoc. reflexivity. Qed.

Lemma bind_ext {A B} (m : M A) (f g : A -> M B) w :
  (forall x w', f x w' = g x w') -> bind m f w = bind m g w.
Proof. intros H. unfold bind. rewrite H. reflexivity. Qed.

Lemma modify_bind {B} (g : World -> World) (k : M B) w :
  (modify g ;;; k) w = k (g w).
Proof. unfold bind, modify. simpl. destruct (k (g w)); reflexivity. Qed.

Lemma get_bind {B} (k : World -> M B) w :
  (x <- get ;; k x) w = k w w.
Proof. unfold bind, get. simpl. destruct (k w w); reflexivity. Qed.

Lemma ret_bind {A B} (x : A) (k : A -> M B) w :
  (y <- ret x ;; k y) w = k x w.
Proof. unfold bind, ret. simpl. destruct (k x w); reflexivity. Qed.

Lemma upd_cmd_same cmd f (w : World) : cmds (upd_cmd cmd f w) cmd = f (cmds w cmd).
Proof. simpl. rewrite Nat.eqb_refl. reflexivity. Qed.

Lemma setupCommand_cmd cmd cfgs w :
  let c := cmds w cmd in
  cmds (world (setupCommand cmd cfgs w)) cmd
  = cobra.set_SilenceErrors true
      (cobra.set_SilenceUsage true
         (match cobra.RunE c with
          | Some fn => cobra.set_RunE (Some (cobra.AppRun fn))
          | None => fun c => c
          end (cobra.set_PreRunE (Some (cobra.SetupPreRun cfgs (cobra.PreRunE c))) c))).
Proof.
  cbv zeta. unfold setupCommand.
  rewrite get_bind, modify_bind, get_bind. rewrite upd_cmd_same.
  cbn [cobra.RunE cobra.set_PreRunE].
  destruct (cobra.RunE (cmds w cmd)).
  - rewrite !modify_bind. unfold bind, emit, ret. cbn [val world evs].
    unfold upd_Config, set_app. cbn [cmds].
    rewrite !upd_cmd_same. reflexivity.
  - rewrite ret_bind, !modify_bind. unfold bind, emit, ret. cbn [val world evs].
    unfold upd_Config, set_app. cbn [cmds].
    rewrite !upd_cmd_same. reflexivity.
Qed.

Lemma SetupRootCommand_split cmd cfgs w :
  SetupRootCommand cmd cfgs w
  = (root_prelude cmd ;;; setupCommand cmd cfgs) w.
Proof.
  unfold SetupRootCommand, setupRootCommand, root_prelude.
  repeat (rewrite bind_assoc; apply bind_ext; intros).
  reflexivity.
Qed.

Lemma SetupRootCommand_world cmd cfgs w :
  world (SetupRootCommand cmd cfgs w)
  = world (setupCommand cmd cfgs (world (root_prelude cmd w))).
Proof. rewrite SetupRootCommand_split. rewrite bind_world. reflexivity. Qed.

(** What binding does to the fields of the command. *)
Lemma bound_fields cmd cfgs w :
  let c := cmds w cmd in
  let c' := cmds (world (setupCommand cmd cfgs w)) cmd in
  cobra.RunE c' = match cobra.RunE c with
                  | Some fn => Some (cobra.AppRun fn)
                  | None => None
                  end
  /\ cobra.PreRunE c' = Some (cobra.SetupPreRun cfgs (cobra.PreRunE c))
  /\ cobra.SilenceUsage c' = true
  /\ cobra.SilenceErrors c' = true
  /\ cobra.Use c' = cobra.Use c
  /\ cobra.Version c' = cobra.Version c
  /\ cobra.versionTemplate c' = cobra.versionTemplate c.
Proof.
  cbv zeta. rewrite setupCommand_cmd. cbv zeta.
  destruct (cobra.RunE (cmds w cmd)) eqn:HR; simpl; rewrite ?HR;
    repeat split; reflexivity.
Qed.

(** C10. The closure of [a.Run] is put in [RunE] only when [RunE] is
    non-nil when the command is bound: a nil [RunE] stays nil, a non-nil
    one is wrapped; in both cases [PreRunE] is replaced by the closure
    that calls [Setup], and [SilenceUsage] and [SilenceErrors] are set.
    This holds for [SetupCommand], and for [SetupRootCommand] with respect
    to the command as it is when [setupCommand] is reached. *)
Theorem RunE_bound_only_when_set cmd cfgs w :
  let bound_from (c c' : cobra.Command) :=
    cobra.RunE c' = match cobra.RunE c with
                    | Some fn => Some (cobra.AppRun fn)
                    | None => None
                    end
    /\ cobra.PreRunE c' = Some (cobra.SetupPreRun cfgs (cobra.PreRunE c))
    /\ cobra.SilenceUsage c' = true
    /\ cobra.SilenceErrors c' = true in
  bound_from (cmds w cmd) (cmds (world (SetupCommand cmd cfgs w)) cmd)
  /\ bound_from (cmds (world (root_prelude cmd w)) cmd)
                (cmds (world (SetupRootCommand cmd cfgs w)) cmd).
Proof.
  cbv zeta. split.
  - unfold SetupCommand.
    destruct (bound_fields cmd cfgs w) as (H1 & H2 & H3 & H4 & _). auto.
  - rewrite SetupRootCommand_world.
    destruct (bound_fields cmd cfgs (world (root_prelude cmd w)))
      as (H1 & H2 & H3 & H4 & _). auto.
Qed.

(** The closure that [setupCommand] stores, when it is called. *)
Lemma call_SetupPreRun {L : Loader} cfgs original cmd args w :
  call_PreRunE (cobra.SetupPreRun cfgs original) cmd args w
  = let s := Setup cfgs cmd args w in
    match val s with
    | Some e => mkRes (Some e) (world s) (evs s)
    | None =>
        match original with
        | Some o =>
            let r := call_PreRunE o cmd args (world s) in
            mkRes (val r) (world r) (evs s ++ evs r)
        | None => mkRes None (world s) (evs s)
        end
    end.
Proof.
  cbv zeta. cbn [call_PreRunE]. unfold bind at 1.
  destruct (val (Setup cfgs cmd args w)).
  - simpl. rewrite app_nil_r. reflexivity.
  - destruct original; simpl; [reflexivity|].
    rewrite app_nil_r. reflexivity.
Qed.

(** C3. After [SetupCommand] or [SetupRootCommand] has bound a command,
    its [PreRunE] is a function that, called with any command and
    arguments, first runs [Setup]; when [Setup] returns an error, it
    returns that error and nothing else happens; otherwise it calls the
    hook that was in [PreRunE] when the command was bound, with the same
    command and arguments, and returns its result; when there was no
    such hook it returns nil. *)
Theorem PreRunE_runs_Setup_then_original (L : Loader) cmd cfgs w :
  let composed (original : option cobra.PreRunFn) (fn : cobra.PreRunFn) :=
    forall c args w1,
      call_PreRunE fn c args w1
      = let s := Setup cfgs c args w1 in
        match val s with
        | Some e => mkRes (Some e) (world s) (evs s)
        | None =>
            match original with
            | Some o =>
                let r := call_PreRunE o c args (world s) in
                mkRes (val r) (world r) (evs s ++ evs r)
            | None => mkRes None (world s) (evs s)
            end
        end in
  (exists fn,
      cobra.PreRunE (cmds (world (SetupCommand cmd cfgs w)) cmd) = Some fn
      /\ composed (cobra.PreRunE (cmds w cmd)) fn)
  /\ (exists fn,
      cobra.PreRunE (cmds (world (SetupRootCommand cmd cfgs w)) cmd) = Some fn
      /\ composed (cobra.PreRunE (cmds (world (root_prelude cmd w)) cmd)) fn).
Proof.
  cbv zeta. split.
  - destruct (bound_fields cmd cfgs w) as (_ & H & _).
    eexists. split; [exact H|]. intros. apply call_SetupPreRun.
  - rewrite SetupRootCommand_world.
    destruct (bound_fields cmd cfgs (world (root_prelude cmd w))) as (_ & H & _).
    eexists. split; [exact H|]. intros. apply call_SetupPreRun.
Qed.

(** ** The root command *)

Lemma postConstructs_keep cmd pcs : forall w,
  Forall (keeps_identity cmd) pcs ->
  let w' := world (postConstructs_range pcs w) in
  cobra.Use (cmds w' cmd) = cobra.Use (cmds w cmd)
  /\ cobra.Version (cmds w' cmd) = cobra.Version (cmds w cmd)
  /\ cobra.versionTemplate (cmds w' cmd) = cobra.versionTemplate (cmds w cmd)
  /\ ID (setupConfig (app w')) = ID (setupConfig (app w)).
Proof.
  induction pcs as [|pc pcs IH]; intros w Hk; simpl.
  - auto.
  - inversion Hk as [|? ? Hpc Hrest]; subst.
    destruct (IH (world (postConstruct pc w)) Hrest) as (A & B & D & E).
    destruct (Hpc w) as (A' & B' & D' & E').
    simpl in *. repeat split; congruence.
Qed.

Lemma cp_id {A} (v : option A) : cp v = v.
Proof. destruct v; reflexivity. Qed.

(** The store in which the post-construction hooks start. *)
Lemma root_prelude_snapshot cmd w :
  exists w0,
    root_prelude cmd w = postConstructs_range (postConstructs (setupConfig (app w))) w0
    /\ setupConfig (app w0) = setupConfig (app w)
    /\ root (app w0) = Some cmd
    /\ cobra.Use (cmds w0 cmd)
       = (if HasPrefix (cobra.Use (cmds w cmd)) (Name (ID (setupConfig (app w))))
          then cobra.Use (cmds w cmd)
          else Name (ID (setupConfig (app w))))
    /\ cobra.Version (cmds w0 cmd) = Version (ID (setupConfig (app w)))
    /\ cobra.versionTemplate (cmds w0 cmd)
       = version_template (Name (ID (setupConfig (app w))))
    /\ Log (StConfig (state (app w0))) = DefaultLoggingConfig (setupConfig (app w))
    /\ Dev (StConfig (state (app w0))) = DefaultDevelopmentConfig (setupConfig (app w)).
Proof.
  unfold root_prelude. rewrite modify_bind, get_bind.
  cbn [app set_app set_root setupConfig cmds].
  destruct (HasPrefix (cobra.Use (cmds w cmd)) (Name (ID (setupConfig (app w))))) eqn:Hp;
    cbn [negb].
  - rewrite ret_bind.
    do 4 (rewrite get_bind, modify_bind;
          cbn [app setupConfig upd_cmd upd_Config set_app set_state set_root]).
    rewrite get_bind.
    cbn [app setupConfig upd_cmd upd_Config set_app set_state set_root].
    eexists. split; [reflexivity|].
    cbn. rewrite !Nat.eqb_refl. cbn. rewrite !cp_id. repeat split; reflexivity.
  - rewrite modify_bind.
    cbn [app setupConfig upd_cmd upd_Config set_app set_state set_root].
    do 4 (rewrite get_bind, modify_bind;
          cbn [app setupConfig upd_cmd upd_Config set_app set_state set_root]).
    rewrite get_bind.
    cbn [app setupConfig upd_cmd upd_Config set_app set_state set_root].
    eexists. split; [reflexivity|].
    cbn. rewrite !Nat.eqb_refl. cbn. rewrite !cp_id. repeat split; reflexivity.
Qed.

Lemma setupCommand_setupConfig cmd cfgs w :
  setupConfig (app (world (setupCommand cmd cfgs w))) = setupConfig (app w).
Proof.
  unfold setupCommand. rewrite get_bind, modify_bind, get_bind.
  destruct (cobra.RunE _).
  - rewrite !modify_bind. reflexivity.
  - rewrite ret_bind, !modify_bind. reflexivity.
Qed.

Lemma postConstructs_range_app pcs1 pcs2 w :
  postConstructs_range (pcs1 ++ pcs2) w
  = (postConstructs_range pcs1 ;;; postConstructs_range pcs2) w.
Proof.
  revert w. induction pcs1 as [|pc pcs1 IH]; intros w; simpl.
  - rewrite ret_bind. reflexivity.
  - rewrite bind_assoc. apply bind_ext. intros _ w'. apply IH.
Qed.

Lemma HasPrefix_forced (use name : string) :
  HasPrefix (if HasPrefix use name then use else name) name = true.
Proof.
  destruct (HasPrefix use name) eqn:H; [exact H|]. apply prefix_refl.
Qed.

Lemma postConstructs_range_fold pcs : forall w es,
  fold_left
    (fun acc pc =>
       let r := postConstruct pc (fst acc) in
       (world r, snd acc ++ evs r))
    pcs (w, es)
  = (world (postConstructs_range pcs w), es ++ evs (postConstructs_range pcs w)).
Proof.
  induction pcs as [|pc pcs IH]; intros w es; simpl.
  - rewrite app_nil_r. reflexivity.
  - rewrite IH. rewrite app_assoc. reflexivity.
Qed.

Lemma postConstructs_range_in_order pcs w :
  postConstructs_range pcs w
  = mkRes tt (fst (hooks_in_order pcs w)) (snd (hooks_in_order pcs w)).
Proof.
  unfold hooks_in_order. rewrite postConstructs_range_fold. simpl.
  destruct (postConstructs_range pcs w) as [[] w' es]. reflexivity.
Qed.

(** C9. [SetupRootCommand] first writes the command and the state, and
    only then runs the post-construction hooks, each once, from the first
    registered to the last, each on the store the one before it left, and
    after them [setupCommand]: there is a store [w0] in which the
    command's [Use] is the old one if it had the application name as a
    prefix and the application name otherwise (so it has that prefix),
    its version is the configured one, its version template is the name
    followed by " {{.Version}}" and a newline, and the state holds copies
    of the default logging and development configurations; the first hook
    starts in [w0], and the result is that of [setupCommand] in the store
    the last hook left, behind the events of the hooks in order.  When
    the hooks leave the command's name, version and template and the
    application's identity as they are, this is also how the command is
    after binding. *)
Theorem root_command_binding cmd cfgs w :
  let sc := setupConfig (app w) in
  let name := Name (ID sc) in
  let forced := if HasPrefix (cobra.Use (cmds w cmd)) name
                then cobra.Use (cmds w cmd) else name in
  exists w0,
    SetupRootCommand cmd cfgs w
    = (let after_hooks :=
         fold_left
           (fun acc pc =>
              let r := postConstruct pc (fst acc) in
              (world r, snd acc ++ evs r))
           (postConstructs sc) (w0, []) in
       let r := setupCommand cmd cfgs (fst after_hooks) in
       mkRes (val r) (world r) (snd after_hooks ++ evs r))
    /\ cobra.Use (cmds w0 cmd) = forced
    /\ HasPrefix (cobra.Use (cmds w0 cmd)) name = true
    /\ cobra.Version (cmds w0 cmd) = Version (ID sc)
    /\ cobra.versionTemplate (cmds w0 cmd) = name +++ " {{.Version}}" +++ nl
    /\ Log (StConfig (state (app w0))) = DefaultLoggingConfig sc
    /\ Dev (StConfig (state (app w0))) = DefaultDevelopmentConfig sc
    /\ (Forall (keeps_identity cmd) (postConstructs sc) ->
        let w' := world (SetupRootCommand cmd cfgs w) in
        ID (setupConfig (app w')) = ID sc
        /\ cobra.Use (cmds w' cmd) = forced
        /\ HasPrefix (cobra.Use (cmds w' cmd)) (Name (ID (setupConfig (app w')))) = true
        /\ cobra.Version (cmds w' cmd) = Version (ID sc)
        /\ cobra.versionTemplate (cmds w' cmd) = name +++ " {{.Version}}" +++ nl).
Proof.
  cbv zeta.
  destruct (root_prelude_snapshot cmd w) as (w0 & Hrun & Hsc & _ & HU & HV & HT & HL & HD).
  exists w0. split.
  { rewrite SetupRootCommand_split. unfold bind. rewrite Hrun.
    rewrite postConstructs_range_in_order. unfold hooks_in_order. reflexivity. }
  split; [exact HU|]. split; [rewrite HU; apply HasPrefix_forced|].
  split; [exact HV|]. split; [exact HT|]. split; [exact HL|]. split; [exact HD|].
  intros Hk. rewrite SetupRootCommand_world. rewrite Hrun.
  destruct (postConstructs_keep cmd _ w0 Hk) as (A & B & D & E).
  set (w1 := world (postConstructs_range (postConstructs (setupConfig (app w))) w0)) in *.
  destruct (bound_fields cmd cfgs w1) as (_ & _ & _ & _ & FU & FV & FT).
  cbv zeta in *. rewrite setupCommand_setupConfig.
  rewrite FU, FV, FT, A, B, D, E, HU, HV, HT, Hsc.
  repeat split; try reflexivity. apply HasPrefix_forced.
Qed.

(** ** The event-loop driver *)

(** C5. [run] starts a profiling session exactly when the development
    configuration is non-nil and selects CPU or memory profiling, of that
    mode and before the event loop is entered; its [Stop] runs once, after
    the event loop has been left, whether that returned nil, returned an
    error or panicked, and [run] leaves the way the event loop did.  With
    a nil development configuration, or any other profile, there is no
    session: the events are those of the event loop alone. *)
Theorem run_profiling ctx errs w :
  let st := state (app w) in
  let loop := eventloop ctx (Nested (StLogger st) ["component"; "eventloop"])
                (Subscription st) errs (UIs st) w in
  run ctx errs w
  = mkRes (val loop) (world loop)
      (match Dev (StConfig st) with
       | Some {| Dev_Profile := ProfileCPU |} =>
           [EvProfileStart CPUProfile] ++ evs loop ++ [EvProfileStop CPUProfile]
       | Some {| Dev_Profile := ProfileMem |} =>
           [EvProfileStart MemProfile] ++ evs loop ++ [EvProfileStop MemProfile]
       | Some {| Dev_Profile := ProfileOther _ |} => evs loop
       | None => evs loop
       end)
  /\ List.length (filter is_stop (evs (run ctx errs w)))
     = List.length (filter is_stop (evs loop))
       + (match session (Dev (StConfig st)) with Some _ => 1 | None => 0 end)
  /\ List.length (filter is_start (evs (run ctx errs w)))
     = List.length (filter is_start (evs loop))
       + (match session (Dev (StConfig st)) with Some _ => 1 | None => 0 end).
Proof.
  cbv zeta.
  assert (E : run ctx errs w
    = mkRes (val (eventloop ctx (Nested (StLogger (state (app w))) ["component"; "eventloop"])
                (Subscription (state (app w))) errs (UIs (state (app w))) w))
        (world (eventloop ctx (Nested (StLogger (state (app w))) ["component"; "eventloop"])
                (Subscription (state (app w))) errs (UIs (state (app w))) w))
        (match session (Dev (StConfig (state (app w)))) with
         | Some m => [EvProfileStart m] ++
                     evs (eventloop ctx (Nested (StLogger (state (app w))) ["component"; "eventloop"])
                (Subscription (state (app w))) errs (UIs (state (app w))) w) ++ [EvProfileStop m]
         | None => evs (eventloop ctx (Nested (StLogger (state (app w))) ["component"; "eventloop"])
                (Subscription (state (app w))) errs (UIs (state (app w))) w)
         end)).
  { unfold run. rewrite get_bind. unfold run_profile, session.
    destruct (Dev (StConfig (state (app w)))) as [[[| |n]]|];
      unfold bind, emit, emits, ret, get; cbn [val world evs app];
      rewrite ?app_nil_r; reflexivity. }
  split; [|split].
  - rewrite E. unfold session.
    destruct (Dev (StConfig (state (app w)))) as [[[| |n]]|]; reflexivity.
  - rewrite E. cbn [evs].
    destruct (session (Dev (StConfig (state (app w))))); [|lia].
    cbn [app]. rewrite filter_app, length_app. simpl.
    rewrite filter_app, length_app. simpl. lia.
  - rewrite E. cbn [evs].
    destruct (session (Dev (StConfig (state (app w))))); [|lia].
    cbn [app]. rewrite filter_app, length_app. simpl.
    rewrite filter_app, length_app. simpl. lia.
Qed.

(** ** The log records *)

Lemma logConfiguration_range_lines w cfgs : forall sb,
  logConfiguration_range w cfgs sb = sb +++ lines (contributions w cfgs).
Proof.
  unfold contributions.
  induction cfgs as [|[d|] cfgs IH]; intros sb; simpl.
  - rewrite append_nil_r. reflexivity.
  - destruct (has_content (TrimSpace (rendering w d))); simpl.
    + rewrite IH. rewrite !append_assoc. reflexivity.
    + apply IH.
  - apply IH.
Qed.

Lemma lines_is_empty texts :
  is_empty (lines texts) = match texts with [] => true | _ :: _ => false end.
Proof. destruct texts as [|[|c t] rest]; reflexivity. Qed.

Lemma is_empty_eqb s : is_empty s = String.eqb s EmptyString.
Proof. destruct s; reflexivity. Qed.

(** C8. The configuration dump is made of the texts of the non-nil
    values of the list, in order.  The text of a value is what its
    [String()] returns when it has one, and otherwise its YAML (or the
    text of the encoder's error), with the white space at both ends
    removed: [TrimSpace] takes a sequence of white-space runes off the
    front and one off the back, and what it returns neither starts nor
    ends with such a rune.  A text is kept exactly when it is neither
    empty nor "{}", and each kept text is followed by a newline.  The
    single record that is logged is the placeholder "config: (none)" when
    no text is kept, and otherwise the coloured, indented, trimmed dump
    behind "config:" and a newline. *)
Theorem logConfiguration_contributions log cfgs w :
  let kept := contributions w cfgs in
  kept = filter (fun s => negb (String.eqb s EmptyString) && negb (String.eqb s "{}"))
           (map (fun d => TrimSpace (rendering w d)) (somes cfgs))
  /\ (forall d,
        rendering w d
        = match Stringer w d with
          | Some str => str
          | None =>
              match yaml_Marshal w d with
              | inl cfgBytes => cfgBytes
              | inr err => Error err
              end
          end)
  /\ (forall s,
        exists l r,
          Runs space_runes l /\ Runs space_runes r
          /\ bytes s = l ++ bytes (TrimSpace s) ++ r
          /\ Forall (fun p => forall x, bytes (TrimSpace s) <> p ++ x) space_runes
          /\ Forall (fun p => forall x, bytes (TrimSpace s) <> x ++ p) space_runes)
  /\ logConfiguration_range w cfgs EmptyString = lines kept
  /\ logConfiguration log cfgs w
     = mkRes tt w
         [match kept with
          | [] => EvDebug log ["config: (none)"]
          | _ :: _ =>
              EvDebugf log ("config:" +++ nl +++ "%+v")
                [Magenta_Sprint (indent_String "  " (TrimSpace (lines kept)))]
          end].
Proof.
  cbv zeta. split; [|split; [|split; [|split]]].
  - unfold contributions. apply filter_ext. intros s. unfold has_content.
    rewrite is_empty_eqb. reflexivity.
  - intros d. unfold rendering, Sprintf_plus_v.
    destruct (Stringer w d); [reflexivity|].
    destruct (yaml_Marshal w d); reflexivity.
  - intros s. apply TrimSpace_spec.
  - rewrite logConfiguration_range_lines. reflexivity.
  - unfold logConfiguration. rewrite get_bind. unfold emit, config_record.
    rewrite logConfiguration_range_lines. cbn [String.append].
    rewrite lines_is_empty.
    destruct (contributions w cfgs); reflexivity.
Qed.

(** The version record when the version is not empty: for every name. *)
Lemma version_record_with_version cfg log :
  is_empty (Version (ID cfg)) = false ->
  rendered (version_record cfg log)
  = Some (Name (ID cfg) +++ " version: " +++ Version (ID cfg)).
Proof.
  intros H. unfold version_record. rewrite H. apply Sprintf_version.
Qed.

(** The version record when the version is empty and the name has no [%]. *)
Lemma version_record_plain cfg log :
  is_empty (Version (ID cfg)) = true ->
  Fmt.no_percent (Name (ID cfg)) = true ->
  rendered (version_record cfg log) = Some (Name (ID cfg)).
Proof.
  intros H Hn. unfold version_record. rewrite H. simpl.
  apply Sprintf_no_percent, Hn.
Qed.

End Facts.

(** ** The goroutine of [async] *)

Import Async.

Lemma async_next_inv r g a g' :
  next r g = Some (a, g') ->
  receiving g' = receiving g
  /\ is_leave a = false
  /\ match at_pc g with
     | Calling => a = Body r /\ at_pc g' = after_body r /\ closed g' = closed g
     | Sending err =>
         if closed g
         then a = Panic "send on closed channel"
              /\ at_pc g' = Leaving true /\ closed g' = closed g
         else receiving g = true
              /\ a = Send err /\ at_pc g' = Leaving false /\ closed g' = closed g
     | Leaving p =>
         if closed g
         then a = Panic "close of closed channel"
              /\ at_pc g' = Done true /\ closed g' = closed g
         else a = Close /\ at_pc g' = Done p /\ closed g' = true
     | Done _ => False
     end.
Proof.
  unfold next. intros H.
  destruct (at_pc g); [| destruct (closed g); [| destruct (receiving g) eqn:R ]
                       | destruct (closed g) | discriminate ];
    try discriminate; inversion H; subst; simpl; repeat split; auto.
Qed.

Lemma async_leave_inv g a g' :
  leave g = Some (a, g') ->
  a = Leave /\ at_pc g' = at_pc g /\ closed g' = closed g /\ receiving g' = false.
Proof.
  unfold leave. destruct (receiving g); [|discriminate].
  intros H. inversion H; subst. auto.
Qed.

Lemma async_reached_step tr g a g' :
  reached tr (at_pc g) (closed g) -> step g a g' ->
  reached (tr ++ own [a]) (at_pc g') (closed g').
Proof.
  intros R [[r N] | L].
  - apply async_next_inv in N. destruct N as (_ & Hl & N).
    unfold own. simpl. rewrite Hl. simpl.
    destruct g as [p c rc]. destruct g' as [p' c' rc']. simpl in *.
    inversion R; subst; simpl in N.
    + destruct N as (-> & -> & ->).
      destruct r as [[err|]|v]; simpl.
      * apply at_send. reflexivity.
      * apply at_defer. reflexivity.
      * apply at_defer. reflexivity.
    + destruct N as (_ & -> & -> & ->). apply at_defer_sent.
    + destruct N as (-> & -> & ->). simpl. apply at_done. assumption.
    + destruct N as (-> & -> & ->). apply at_done_sent.
    + contradiction.
    + contradiction.
  - apply async_leave_inv in L. destruct L as (-> & -> & -> & _).
    unfold own. simpl. rewrite app_nil_r. exact R.
Qed.

Lemma async_own_app tr1 tr2 : own (tr1 ++ tr2) = own tr1 ++ own tr2.
Proof. unfold own. apply filter_app. Qed.

Lemma async_exec_reached g tr g' :
  exec g tr g' ->
  forall tr0, reached tr0 (at_pc g) (closed g) ->
              reached (tr0 ++ own tr) (at_pc g') (closed g').
Proof.
  induction 1 as [g|g a g1 tr g2 S E IH]; intros tr0 R.
  - unfold own. simpl. rewrite app_nil_r. exact R.
  - change (a :: tr) with ([a] ++ tr). rewrite async_own_app, app_assoc.
    apply IH. eapply async_reached_step; eassumption.
Qed.






(** ** Runs of the demo application *)

Section Runs.

#[local] Existing Instance Demo.types.
#[local] Existing Instance Demo.collaborators.

Import Demo.

(** C1, a run that contradicts the claim as stated: the second
    initializer fails with [boom] and the third never runs, but what
    [Setup] returns is not [boom]: it is a new error with the text
    "invalid application config: boom". *)
Lemma Setup_wraps_initializer_error :
  val (initializer 2 w0) = Some boom
  /\ evs (Setup (L := fangs) [] 0 [] w0)
     = [EvExtern "resources"; EvExtern "initializer 1"; EvExtern "initializer 2"]
  /\ val (Setup (L := fangs) [] 0 [] w0)
     = Some (errorString "invalid application config: boom")
  /\ val (Setup (L := fangs) [] 0 [] w0) <> Some boom.
Proof.
  split; [reflexivity|]. split; [reflexivity|]. split; [reflexivity|].
  vm_compute. discriminate.
Qed.

Lemma initializers_fail_fast_witness :
  runInitializers w0
  = mkRes (Some boom) w0 [EvExtern "initializer 1"; EvExtern "initializer 2"]
  /\ Setup (L := fangs) [] 0 [] w0
     = mkRes (Some (errorString "invalid application config: boom")) w0
         [EvExtern "resources"; EvExtern "initializer 1"; EvExtern "initializer 2"].
Proof.
  destruct (initializers_fail_fast [1] 2 [3] boom w0 w0 [EvExtern "initializer 1"])
    as (H1 & _ & H3 & _); [reflexivity | reflexivity | reflexivity |].
  split.
  - exact H1.
  - apply (H3 [] 0 [] w0 [EvExtern "resources"]). reflexivity.
Defined.

(** C7, at a name that contains a [%]: the name is passed to [Infof] as
    the format, and the record that a printf-style logger writes is not
    the name. *)
Theorem logVersion_name_is_format :
  let cfg := config "100%" EmptyString in
  let log := LoggerHandle 0 in
  evs (logVersion cfg log w0) = [EvInfof log "100%" []]
  /\ map rendered (evs (logVersion cfg log w0)) = [Some "100%!(NOVERB)"]
  /\ map rendered (evs (logVersion cfg log w0)) <> [Some (Name (ID cfg))].
Proof.
  cbv zeta. split; [reflexivity|]. split; [reflexivity|].
  vm_compute. discriminate.
Qed.

(** The scenarios of the specification: name "tool" without and with a version. *)
Lemma logVersion_tool :
  map rendered (evs (logVersion (config "tool" EmptyString) (LoggerHandle 0) w0))
  = [Some "tool"]
  /\ map rendered (evs (logVersion (config "tool" "1.2.3") (LoggerHandle 0) w0))
     = [Some "tool version: 1.2.3"].
Proof. split; reflexivity. Qed.

(** The scenario of the specification for the configuration dump: of an
    object with the YAML "{}" and one with "foo: bar", only the second is
    in the dump; two empty objects give the placeholder. *)
Lemma logConfiguration_scenarios :
  evs (logConfiguration (LoggerHandle 0) [Some (DObj 4); None; Some (DObj 1)] w0)
  = [EvDebugf (LoggerHandle 0) ("config:" +++ nl +++ "%+v") ["  foo: bar"]]
  /\ evs (logConfiguration (LoggerHandle 0) [Some (DObj 4); Some (DObj 5)] w0)
     = [EvDebug (LoggerHandle 0) ["config: (none)"]].
Proof. split; reflexivity. Qed.

Lemma root_command_binding_witness :
  cobra.Use (cmds (world (SetupRootCommand 0 [Some (DObj 1)] w0)) 0) = "tool"
  /\ cobra.Version (cmds (world (SetupRootCommand 0 [Some (DObj 1)] w0)) 0) = "1.2.3"
  /\ cobra.versionTemplate (cmds (world (SetupRootCommand 0 [Some (DObj 1)] w0)) 0)
     = "tool {{.Version}}" +++ nl.
Proof.
  destruct (root_command_binding 0 [Some (DObj 1)] w0) as (w & _ & _ & _ & _ & _ & _ & _ & H).
  assert (K : Forall (keeps_identity 0) (postConstructs (setupConfig (app w0)))).
  { simpl. repeat constructor. }
  destruct (H K) as (_ & HU & _ & HV & HT).
  split; [exact HU|]. split; [exact HV | exact HT].
Defined.



End Runs.

(** * Further properties of the package *)

Section MoreFacts.

Context {T : Types} {C : Collaborators}.

(** ** [PostLoad] and the initializers *)

(** X1. When building the resources fails, [PostLoad] returns that error
    itself, with the store and the events of [setup] alone: no
    initializer is called, whatever is registered. *)
Theorem PostLoad_setup_failure w e :
  val (state_setup (setupConfig (app w)) w) = Some e ->
  let s := state_setup (setupConfig (app w)) w in
  PostLoad w = mkRes (Some e) (world s) (evs s).
Proof.
  intros H. cbv zeta. unfold PostLoad. rewrite get_bind.
  apply step_err. exact H.
Qed.

Lemma runInitializers_range_cases inits : forall w,
  (exists w1 evs1,
      all_ok (map initializer inits) w = Some (w1, evs1)
      /\ runInitializers_range inits w = mkRes None w1 evs1)
  \/ (exists pre f post e w1 evs1,
      inits = pre ++ f :: post
      /\ all_ok (map initializer pre) w = Some (w1, evs1)
      /\ val (initializer f w1) = Some e
      /\ runInitializers_range inits w
         = mkRes (Some e) (world (initializer f w1)) (evs1 ++ evs (initializer f w1))).
Proof.
  induction inits as [|p inits IH]; intros w.
  - left. exists w, []. split; reflexivity.
  - destruct (val (initializer p w)) as [e|] eqn:Hp.
    + right. exists [], p, inits, e, w, []. split; [reflexivity|].
      split; [reflexivity|]. split; [exact Hp|].
      apply (runInitializers_range_stops [] p inits w w [] e eq_refl Hp).
    + destruct (IH (world (initializer p w)))
        as [(w1 & evs1 & Hok & Hr) | (pre & f & post & e & w1 & evs1 & Hi & Hok & Hf & Hr)].
      * left. exists w1, (evs (initializer p w) ++ evs1). split.
        -- simpl. rewrite Hp, Hok. reflexivity.
        -- simpl. unfold bind at 1. rewrite Hp, Hr. reflexivity.
      * right. exists (p :: pre), f, post, e, w1, (evs (initializer p w) ++ evs1).
        split; [rewrite Hi; reflexivity|]. split.
        -- simpl. rewrite Hp, Hok. reflexivity.
        -- split; [exact Hf|]. simpl. unfold bind at 1. rewrite Hp, Hr.
           simpl. rewrite app_assoc. reflexivity.
Qed.

Lemma all_ok_none_iff steps w :
  all_ok steps w = None
  <-> exists pre f post w1 evs1 e,
        steps = pre ++ f :: post /\ all_ok pre w = Some (w1, evs1) /\ val (f w1) = Some e.
Proof.
  revert w. induction steps as [|s steps IH]; intros w; simpl.
  - split; [discriminate|]. intros (pre & f & post & _ & _ & _ & H & _).
    destruct pre; discriminate.
  - destruct (val (s w)) as [e|] eqn:Hs.
    + split; [|reflexivity]. intros _.
      exists [], s, steps, w, [], e. repeat split; auto.
    + destruct (all_ok steps (world (s w))) as [[w' es]|] eqn:Hr.
      * split; [discriminate|].
        intros (pre & f & post & w1 & evs1 & e & H & Hok & Hf).
        destruct pre as [|s' pre]; simpl in *.
        -- inversion H; subst. inversion Hok; subst. congruence.
        -- inversion H; subst. rewrite Hs in Hok.
           destruct (all_ok pre (world (s' w))) as [[w2 es2]|] eqn:Hpre; [|discriminate].
           inversion Hok; subst.
           assert (X : all_ok (pre ++ f :: post) (world (s' w)) = None).
           { apply IH. exists pre, f, post, w1, es2, e. repeat split; auto. }
           congruence.
      * split; [|reflexivity]. intros _. apply IH in Hr.
        destruct Hr as (pre & f & post & w1 & evs1 & e & H & Hok & Hf).
        exists (s :: pre), f, post, w1, (evs (s w) ++ evs1), e.
        split; [rewrite H; reflexivity|]. split; [|exact Hf].
        simpl. rewrite Hs, Hok. reflexivity.
Qed.

(** X2. [runInitializers] returns nil exactly when every registered
    initializer, called in registration order on the store its
    predecessor left, returns nil; then all of them have run and the
    events are theirs, in order.  Otherwise it returns the error of the
    first initializer that fails, and the initializers after it have
    not run. *)
Theorem runInitializers_cases w :
  let inits := Initializers (setupConfig (app w)) in
  match all_ok (map initializer inits) w with
  | Some (w1, evs1) => runInitializers w = mkRes None w1 evs1
  | None =>
      exists pre f post e w1 evs1,
        inits = pre ++ f :: post
        /\ all_ok (map initializer pre) w = Some (w1, evs1)
        /\ val (initializer f w1) = Some e
        /\ runInitializers w
           = mkRes (Some e) (world (initializer f w1)) (evs1 ++ evs (initializer f w1))
  end.
Proof.
  cbv zeta. unfold runInitializers. rewrite get_bind.
  destruct (runInitializers_range_cases (Initializers (setupConfig (app w))) w)
    as [(w1 & evs1 & Hok & Hr) | (pre & f & post & e & w1 & evs1 & Hi & Hok & Hf & Hr)].
  - rewrite Hok. exact Hr.
  - destruct (all_ok (map initializer (Initializers (setupConfig (app w)))) w)
      as [[w2 es2]|] eqn:Hall.
    + exfalso.
      assert (X : all_ok (map initializer (Initializers (setupConfig (app w)))) w = None).
      { apply all_ok_none_iff.
        exists (map initializer pre), (initializer f), (map initializer post), w1, evs1, e.
        split; [rewrite Hi, map_app; reflexivity|]. auto. }
      congruence.
    + exists pre, f, post, e, w1, evs1. auto.
Qed.

End MoreFacts.

Section MoreBinding.

Context {T : Types} {C : Collaborators}.

(** ** [setupCommand] *)

Lemma setupCommand_run cmd cfgs w :
  let r := setupCommand cmd cfgs w in
  val r = cmd
  /\ evs r = [EvAddFlags cmd cfgs]
  /\ app (world r)
     = set_state
         (set_Config
            (set_FromCommands (FromCommands (StConfig (state (app w))) ++ cfgs)
               (StConfig (state (app w))))
            (state (app w)))
         (app w)
  /\ forall p, Nat.eqb p cmd = false -> cmds (world r) p = cmds w p.
Proof.
  cbv zeta. unfold setupCommand. rewrite get_bind, modify_bind, get_bind.
  destruct (cobra.RunE _).
  - rewrite !modify_bind. unfold bind, emit, ret. cbn [val world evs].
    repeat split; try reflexivity.
    intros p Hp. cbn. rewrite !Hp. reflexivity.
  - rewrite ret_bind, !modify_bind. unfold bind, emit, ret. cbn [val world evs].
    repeat split; try reflexivity.
    intros p Hp. cbn. rewrite !Hp. reflexivity.
Qed.

(** X3. Binding a command returns that command, makes exactly one call
    of [fangs.AddFlags] (for the command's flags and the given
    configurations) and appends the configurations to
    [State.Config.FromCommands]; the root pointer, the setup
    configuration, the rest of the state and every other command are left
    as they were. *)
Theorem setupCommand_frame cmd cfgs w :
  let r := setupCommand cmd cfgs w in
  let st := state (app w) in
  let st' := state (app (world r)) in
  val r = cmd
  /\ evs r = [EvAddFlags cmd cfgs]
  /\ FromCommands (StConfig st') = FromCommands (StConfig st) ++ cfgs
  /\ Log (StConfig st') = Log (StConfig st)
  /\ Dev (StConfig st') = Dev (StConfig st)
  /\ StLogger st' = StLogger st
  /\ Subscription st' = Subscription st
  /\ UIs st' = UIs st
  /\ RedactStore st' = RedactStore st
  /\ Bus st' = Bus st
  /\ root (app (world r)) = root (app w)
  /\ setupConfig (app (world r)) = setupConfig (app w)
  /\ forall p, cmds (world r) p
               = if Nat.eqb p cmd then cmds (world r) cmd else cmds w p.
Proof.
  cbv zeta.
  destruct (setupCommand_run cmd cfgs w) as (Hv & He & Ha & Hc).
  split; [exact Hv|]. split; [exact He|]. rewrite Ha.
  cbn [app state set_state set_Config StConfig FromCommands set_FromCommands
       Log Dev StLogger Subscription UIs RedactStore Bus root setupConfig].
  do 10 (split; [reflexivity|]).
  intros p. destruct (Nat.eqb p cmd) eqn:Hp.
  - apply Nat.eqb_eq in Hp. subst. reflexivity.
  - apply Hc, Hp.
Qed.

(** X4. Binding is not idempotent: binding the same command a second
    time wraps once more.  [PreRunE] becomes the closure for the second
    configurations around the closure for the first around the original
    hook, a non-nil [RunE] is wrapped by [a.Run] twice, and
    [FromCommands] has received both lists, in the order of the calls. *)
Theorem setupCommand_twice cmd cfgs1 cfgs2 w :
  let w1 := world (setupCommand cmd cfgs1 w) in
  let w2 := world (setupCommand cmd cfgs2 w1) in
  cobra.PreRunE (cmds w2 cmd)
  = Some (cobra.SetupPreRun cfgs2
            (Some (cobra.SetupPreRun cfgs1 (cobra.PreRunE (cmds w cmd)))))
  /\ cobra.RunE (cmds w2 cmd)
     = match cobra.RunE (cmds w cmd) with
       | Some fn => Some (cobra.AppRun (cobra.AppRun fn))
       | None => None
       end
  /\ FromCommands (StConfig (state (app w2)))
     = FromCommands (StConfig (state (app w))) ++ cfgs1 ++ cfgs2.
Proof.
  cbv zeta.
  destruct (bound_fields cmd cfgs1 w) as (R1 & P1 & _).
  destruct (bound_fields cmd cfgs2 (world (setupCommand cmd cfgs1 w))) as (R2 & P2 & _).
  cbv zeta in *. split; [|split].
  - rewrite P2, P1. reflexivity.
  - rewrite R2, R1. destruct (cobra.RunE (cmds w cmd)); reflexivity.
  - destruct (setupCommand_run cmd cfgs1 w) as (_ & _ & F1 & _).
    destruct (setupCommand_run cmd cfgs2 (world (setupCommand cmd cfgs1 w)))
      as (_ & _ & F2 & _).
    cbv zeta in *. rewrite F2, F1. cbn. rewrite app_assoc. reflexivity.
Qed.

(** X5. The hook left by two bindings, when it is called, runs [Setup]
    for the second configurations, then [Setup] for the first, then the
    original hook; the first error among them is the result and ends the
    call. *)
Theorem call_twice_bound (L : Loader) cfgs1 cfgs2 original cmd args w :
  call_PreRunE (cobra.SetupPreRun cfgs2 (Some (cobra.SetupPreRun cfgs1 original)))
               cmd args w
  = let s2 := Setup cfgs2 cmd args w in
    match val s2 with
    | Some e => mkRes (Some e) (world s2) (evs s2)
    | None =>
        let s1 := Setup cfgs1 cmd args (world s2) in
        match val s1 with
        | Some e => mkRes (Some e) (world s1) (evs s2 ++ evs s1)
        | None =>
            match original with
            | Some o =>
                let r := call_PreRunE o cmd args (world s1) in
                mkRes (val r) (world r) (evs s2 ++ evs s1 ++ evs r)
            | None => mkRes None (world s1) (evs s2 ++ evs s1)
            end
        end
    end.
Proof.
  cbv zeta. rewrite call_SetupPreRun. cbv zeta.
  destruct (val (Setup cfgs2 cmd args w)); [reflexivity|].
  rewrite call_SetupPreRun. cbv zeta.
  destruct (val (Setup cfgs1 cmd args _)); [reflexivity|].
  destruct original; reflexivity.
Qed.

(** ** [loadConfigs] *)

(** X6. [loadConfigs] returns either a list or an error, never both and
    never neither, as the loader decides: when the loader fails with [e],
    the list is nil and the error is a new one whose text is "invalid
    application config: " followed by the text of [e]; when the loader
    succeeds, the error is nil and the list is not empty, its first entry
    being the core configuration. *)
Theorem loadConfigs_list_or_error (L : Loader) cmd (withResources : bool) cfgs w :
  let l := Load (SetupFangsConfig (setupConfig (app w))) cmd
             (spec_load_list withResources cfgs) w in
  let r := val (loadConfigs cmd withResources cfgs w) in
  match val l with
  | Some e =>
      fst r = []
      /\ exists e',
          snd r = Some e'
          /\ Error e' = "invalid application config: " +++ Error e
          /\ HasPrefix (Error e') "invalid application config: " = true
  | None => snd r = None /\ exists rest, fst r = Some DCore :: rest
  end.
Proof.
  cbv zeta. rewrite loadConfigs_targets. cbv zeta. cbn [val].
  destruct (val (Load _ cmd _ w)); cbn [fst snd].
  - split; [reflexivity|]. eexists. split; [reflexivity|].
    split; [reflexivity|]. unfold HasPrefix, Errorf_invalid. cbn [Error].
    apply prefix_append.
  - split; [reflexivity|]. eexists. reflexivity.
Qed.

(** ** [nonNil] *)

(** X7. [nonNil] removes exactly the nil entries: a list of non-nil
    values is kept as it is and a list of nils becomes empty; applying it
    twice is the same as once; it distributes over [append]; and the
    result is never longer than the argument. *)
Theorem nonNil_properties (a b : list any) (ds : list dyn) (n : nat) :
  nonNil (map Some ds) = map Some ds
  /\ nonNil (repeat None n) = []
  /\ nonNil (nonNil a) = nonNil a
  /\ nonNil (a ++ b) = nonNil a ++ nonNil b
  /\ List.length (nonNil a) <= List.length a
  /\ map Some (somes a) = nonNil a.
Proof.
  rewrite !nonNil_filter. split; [|split; [|split; [|split; [|split]]]].
  - induction ds as [|d ds IH]; simpl; [reflexivity|]. rewrite IH. reflexivity.
  - induction n as [|n IH]; simpl; [reflexivity | exact IH].
  - induction a as [|[d|] a IH]; simpl; [reflexivity | rewrite IH; reflexivity | exact IH].
  - apply filter_app.
  - apply filter_length_le.
  - induction a as [|[d|] a IH]; simpl; [reflexivity | rewrite IH; reflexivity | exact IH].
Qed.

(** ** [logConfiguration] *)

Lemma contributions_app w a b :
  contributions w (a ++ b) = contributions w a ++ contributions w b.
Proof.
  unfold contributions.
  assert (S : somes (a ++ b) = somes a ++ somes b).
  { induction a as [|[d|] a IH]; simpl; congruence. }
  rewrite S, map_app, filter_app. reflexivity.
Qed.

(** X8. [logConfiguration] depends only on the non-nil entries of its
    list: it logs the same record for a list and for the list with its
    nil entries removed; and the texts of a list that is a concatenation
    are those of its parts, in order.  It never changes the store and
    always logs exactly one record. *)
Theorem logConfiguration_nil_entries log cfgs cfgs' w :
  logConfiguration log (nonNil cfgs) w = logConfiguration log cfgs w
  /\ contributions w (cfgs ++ cfgs') = contributions w cfgs ++ contributions w cfgs'
  /\ world (logConfiguration log cfgs w) = w
  /\ List.length (evs (logConfiguration log cfgs w)) = 1.
Proof.
  split; [|split; [|split]].
  - unfold logConfiguration. rewrite !get_bind.
    rewrite !logConfiguration_range_lines. unfold contributions.
    rewrite nonNil_filter, somes_filter_non_nil. reflexivity.
  - apply contributions_app.
  - unfold logConfiguration. rewrite get_bind. reflexivity.
  - unfold logConfiguration. rewrite get_bind. reflexivity.
Qed.

End MoreBinding.

Section MoreSetup.

Context {T : Types} {C : Collaborators}.

(** ** [logVersion] *)

(** X9. With a non-empty version, [logVersion] logs one record whose
    text is the name, " version: " and the version, for every name and
    version (a [%] in either is printed as it is), and leaves the store
    as it is. *)
Theorem logVersion_with_version cfg log w :
  is_empty (Version (ID cfg)) = false ->
  map rendered (evs (logVersion cfg log w))
  = [Some (Name (ID cfg) +++ " version: " +++ Version (ID cfg))]
  /\ world (logVersion cfg log w) = w.
Proof.
  intros H. split; [|reflexivity].
  unfold logVersion, emit. cbn [evs map].
  rewrite (version_record_with_version cfg log H). reflexivity.
Qed.

(** X10. With an empty version and a name without [%], [logVersion] logs
    one record whose text is exactly the name. *)
Theorem logVersion_plain_name cfg log w :
  is_empty (Version (ID cfg)) = true ->
  Fmt.no_percent (Name (ID cfg)) = true ->
  map rendered (evs (logVersion cfg log w)) = [Some (Name (ID cfg))]
  /\ world (logVersion cfg log w) = w.
Proof.
  intros H Hn. split; [|reflexivity].
  unfold logVersion, emit. cbn [evs map].
  rewrite (version_record_plain cfg log H Hn). reflexivity.
Qed.

(** ** A successful [Setup] *)

Lemma PostLoad_succeeds w w1 evs1 wA :
  val (state_setup (setupConfig (app wA)) wA) = None ->
  world (state_setup (setupConfig (app wA)) wA) = w ->
  all_ok (map initializer (Initializers (setupConfig (app w)))) w = Some (w1, evs1) ->
  PostLoad wA
  = mkRes None w1 (evs (state_setup (setupConfig (app wA)) wA) ++ evs1).
Proof.
  intros Hs Hw Hok. unfold PostLoad, runInitializers, bind, get. simpl.
  rewrite Hs, Hw. simpl.
  rewrite (runInitializers_range_all _ _ _ _ Hok). reflexivity.
Qed.

Lemma fangs_Load_through_PostLoad cfg cmd rest w0 w ev0 w1 evs1 :
  all_ok (before_initializers cfg cmd) w0 = Some (w, ev0) ->
  all_ok (map initializer (Initializers (setupConfig (app w)))) w = Some (w1, evs1) ->
  let rl := fangs_Load cfg cmd rest w1 in
  fangs_Load cfg cmd (Some DCore :: Some DApp :: rest) w0
  = mkRes (val rl) (world rl) (ev0 ++ evs1 ++ evs rl).
Proof.
  intros H0 Hok. cbv zeta. unfold before_initializers in H0.
  apply all_ok_cons in H0. destruct H0 as [H1 [es1 [H0 E1]]].
  apply all_ok_cons in H0. destruct H0 as [H2 [es2 [H0 E2]]].
  apply all_ok_cons in H0. destruct H0 as [H3 [es3 [H0 E3]]].
  apply all_ok_cons in H0. destruct H0 as [H4 [es4 [H0 E4]]].
  simpl in H0. inversion H0; subst; clear H0.
  set (wa := world (populate cfg cmd (Some DCore) w0)) in *.
  set (wb := world (run_hook corePostLoad wa)) in *.
  set (wc := world (populate cfg cmd (Some DApp) wb)) in *.
  simpl in H4, Hok.
  cbn [fangs_Load post_load_hook].
  rewrite (step_ok _ _ _ H1). fold wa.
  rewrite (step_ok _ _ _ H2). fold wb.
  rewrite (step_ok _ _ _ H3). fold wc.
  pose proof (PostLoad_succeeds _ w1 evs1 wc H4 eq_refl Hok) as HP.
  change (run_hook (Some PostLoad)) with PostLoad.
  assert (Pv : val (PostLoad wc) = None) by (rewrite HP; reflexivity).
  rewrite (step_ok _ _ _ Pv). cbn [val world evs].
  assert (Pw : world (PostLoad wc) = w1) by (rewrite HP; reflexivity).
  assert (Pe : evs (PostLoad wc) = evs (state_setup (setupConfig (app wc)) wc) ++ evs1)
    by (rewrite HP; reflexivity).
  rewrite Pw, Pe. f_equal. simpl. rewrite app_nil_r, <- !app_assoc. reflexivity.
Qed.

(** X11. In a successful [Setup] with the loader of the specification,
    all initializers have run, in order, after the core configuration was
    loaded and the resources were built, before any configuration of the
    caller is loaded and before the two log records: the events are those
    up to the resources, those of the initializers, those of loading the
    caller's non-nil configurations, then the version record and the
    configuration record, both made in the store that the load left. *)
Theorem Setup_initializers_before_logs cfgs cmd args w0 w ev0 w1 evs1 :
  let cfg := SetupFangsConfig (setupConfig (app w0)) in
  let rl := fangs_Load cfg cmd (filter non_nil cfgs) w1 in
  let log := StLogger (state (app (world rl))) in
  all_ok (before_initializers cfg cmd) w0 = Some (w, ev0) ->
  all_ok (map initializer (Initializers (setupConfig (app w)))) w = Some (w1, evs1) ->
  val rl = None ->
  Setup (L := fangs) cfgs cmd args w0
  = mkRes None (world rl)
      (ev0 ++ evs1 ++ evs rl
       ++ [version_record (setupConfig (app (world rl))) log;
           config_record log
             (logConfiguration_range (world rl) (spec_load_list true cfgs) EmptyString)]).
Proof.
  cbv zeta. intros H0 Hok Hl.
  assert (E : fangs_Load (SetupFangsConfig (setupConfig (app w0))) cmd
                (spec_load_list true cfgs) w0
              = mkRes None
                  (world (fangs_Load (SetupFangsConfig (setupConfig (app w0))) cmd
                            (filter non_nil cfgs) w1))
                  (ev0 ++ evs1 ++
                   evs (fangs_Load (SetupFangsConfig (setupConfig (app w0))) cmd
                          (filter non_nil cfgs) w1))).
  { change (spec_load_list true cfgs)
      with (Some DCore :: Some DApp :: filter non_nil cfgs).
    rewrite (fangs_Load_through_PostLoad _ cmd (filter non_nil cfgs) w0 w ev0 w1 evs1 H0 Hok).
    cbv zeta. rewrite Hl. reflexivity. }
  rewrite (Setup_after_load (L := fangs)). cbv zeta.
  change (@Load T fangs) with fangs_Load.
  rewrite !E. cbn [val world evs]. rewrite <- !app_assoc. reflexivity.
Qed.

End MoreSetup.

(** ** The configuration summary *)

Lemma substring_all s : substring 0 (String.length s) s = s.
Proof. induction s as [|c s IH]; simpl; congruence. Qed.

Lemma substring_skip p s n :
  substring (String.length p) n (p +++ s) = substring 0 n s.
Proof. induction p as [|c p IH]; simpl; [reflexivity | exact IH]. Qed.

Lemma length_append a b :
  String.length (a +++ b) = String.length a + String.length b.
Proof. induction a; simpl; congruence. Qed.

Lemma HasSuffix_append p s : HasSuffix (p +++ s) s = true.
Proof.
  unfold HasSuffix. rewrite length_append.
  replace (String.length p + String.length s - String.length s)
    with (String.length p) by lia.
  rewrite substring_skip, substring_all, String.eqb_refl.
  rewrite andb_true_r. apply Nat.leb_le. lia.
Qed.

Lemma substring_split s : forall n,
  n <= String.length s ->
  s = substring 0 n s +++ substring n (String.length s - n) s.
Proof.
  induction s as [|c s IH]; intros n Hn; simpl in *.
  - destruct n; reflexivity.
  - destruct n as [|n]; simpl.
    + rewrite substring_all. reflexivity.
    + f_equal. apply IH. lia.
Qed.

Lemma HasSuffix_inv f s : HasSuffix f s = true -> exists p, f = p +++ s.
Proof.
  unfold HasSuffix. intros H. apply andb_prop in H. destruct H as [Hl He].
  apply Nat.leb_le in Hl. apply String.eqb_eq in He.
  exists (substring 0 (String.length f - String.length s) f).
  transitivity (substring 0 (String.length f - String.length s) f
                +++ substring (String.length f - String.length s)
                      (String.length f - (String.length f - String.length s)) f).
  - apply substring_split. lia.
  - f_equal.
    replace (String.length f - (String.length f - String.length s))
      with (String.length s) by lia.
    exact He.
Qed.

Section MoreSummary.

Context {T : Types} {C : Collaborators} {S : Summaries}.

Lemma summarizeConfig_range_lines locations : forall summary,
  summarizeConfig_range locations summary
  = summary +++ lines (map (fun f => "  - " +++ f)
                         (filter (fun f => HasSuffix f ".yaml") locations)).
Proof.
  induction locations as [|f rest IH]; intros summary; simpl.
  - rewrite append_nil_r. reflexivity.
  - destruct (HasSuffix f ".yaml"); simpl.
    + rewrite IH. rewrite append_assoc. f_equal.
      simpl. rewrite append_assoc. reflexivity.
    + apply IH.
Qed.

(** X12. The summary lists, under "Config Search Locations:", exactly
    the search locations whose name ends in ".yaml", in their order, one
    per line behind "  - "; every location of the form [p.yaml] passes
    the test, and locations with another ending are left out.  The
    command part is what [fangs.SummarizeCommand] gives for the
    configurations recorded in [FromCommands], without one final newline
    and indented; the whole is trimmed. *)
Theorem summarizeConfig_locations cmd w :
  let cfg := SetupFangsConfig (setupConfig (app w)) in
  summarizeConfig cmd w
  = TrimSpace
      (summary_head cmd (FromCommands (StConfig (state (app w)))) w
       +++ lines (map (fun f => "  - " +++ f)
                    (filter (fun f => HasSuffix f ".yaml") (SummarizeLocations cfg))))
  /\ (forall p, HasSuffix (p +++ ".yaml") ".yaml" = true)
  /\ (forall f, if HasSuffix f ".yaml"
                then exists p, f = p +++ ".yaml"
                else forall p, f <> p +++ ".yaml").
Proof.
  cbv zeta. split; [|split].
  - unfold summarizeConfig. cbv zeta. rewrite summarizeConfig_range_lines.
    unfold summary_head. rewrite !append_assoc. reflexivity.
  - intros p. apply HasSuffix_append.
  - intros f. destruct (HasSuffix f ".yaml") eqn:H.
    + apply HasSuffix_inv, H.
    + intros p E. subst f. rewrite HasSuffix_append in H. discriminate.
Qed.

(** X13. The summary sees the configurations of every binding made
    before it: after a command has been bound with [cfgs], the command
    part of the summary is made from [FromCommands] as it was, followed
    by [cfgs]. *)
Theorem summarizeConfig_after_binding cmd cfgs c w :
  let w' := world (setupCommand cmd cfgs w) in
  summarizeConfig c w'
  = TrimSpace
      (summary_head c (FromCommands (StConfig (state (app w))) ++ cfgs) w'
       +++ lines (map (fun f => "  - " +++ f)
                    (filter (fun f => HasSuffix f ".yaml")
                       (SummarizeLocations (SetupFangsConfig (setupConfig (app w))))))).
Proof.
  cbv zeta. unfold summarizeConfig. cbv zeta. rewrite summarizeConfig_range_lines.
  unfold summary_head. rewrite !append_assoc.
  destruct (setupCommand_run cmd cfgs w) as (_ & _ & F & _).
  cbv zeta in F. rewrite F. reflexivity.
Qed.

End MoreSummary.

(** ** The goroutine of [async], continued *)

Lemma async_panics_own tr :
  forallb (fun a => negb (AsyncMore.is_panic a)) tr
  = forallb (fun a => negb (AsyncMore.is_panic a)) (Async.own tr).
Proof.
  unfold Async.own. induction tr as [|a tr IH]; simpl; [reflexivity|].
  destruct a; simpl; rewrite ?IH; reflexivity.
Qed.

Lemma async_bodies_own tr :
  filter AsyncMore.is_body tr = filter AsyncMore.is_body (Async.own tr).
Proof.
  unfold Async.own. induction tr as [|a tr IH]; simpl; [reflexivity|].
  destruct a; simpl; rewrite ?IH; reflexivity.
Qed.

(** X14. In no run does the goroutine of [async] panic on the channel
    (it never sends on a closed channel and never closes it twice), the
    body is called at most once, and the channel is closed only when the
    goroutine has finished. *)
Theorem async_never_panics tr g :
  Async.exec Async.start tr g ->
  forallb (fun a => negb (AsyncMore.is_panic a)) tr = true
  /\ List.length (filter AsyncMore.is_body tr) <= 1
  /\ Async.closed g = Async.finished g.
Proof.
  intros E.
  pose proof (async_exec_reached _ _ _ E [] Async.at_start) as R. simpl in R.
  clear E.
  rewrite async_panics_own, async_bodies_own. unfold Async.finished.
  destruct g as [p c rc]. simpl in *.
  inversion R; subst; simpl; repeat split; auto.
Qed.

Section MoreRoot.

Context {T : Types} {C : Collaborators}.

(** ** The root command without post-construction hooks *)

Lemma root_prelude_state cmd w :
  exists w0,
    root_prelude cmd w = postConstructs_range (postConstructs (setupConfig (app w))) w0
    /\ app w0
       = set_state
           (set_Config
              (set_Dev (DefaultDevelopmentConfig (setupConfig (app w)))
                 (set_Log (DefaultLoggingConfig (setupConfig (app w)))
                    (StConfig (state (app w)))))
              (state (app w)))
           (set_root (Some cmd) (app w))
    /\ env w0 = env w
    /\ (forall p, Nat.eqb p cmd = false -> cmds w0 p = cmds w p)
    /\ cobra.PreRunE (cmds w0 cmd) = cobra.PreRunE (cmds w cmd)
    /\ cobra.RunE (cmds w0 cmd) = cobra.RunE (cmds w cmd).
Proof.
  unfold root_prelude. rewrite modify_bind, get_bind.
  cbn [app set_app set_root setupConfig cmds].
  destruct (HasPrefix (cobra.Use (cmds w cmd)) (Name (ID (setupConfig (app w))))) eqn:Hp;
    cbn [negb].
  - rewrite ret_bind.
    do 4 (rewrite get_bind, modify_bind;
          cbn [app setupConfig upd_cmd upd_Config set_app set_state set_root]).
    rewrite get_bind.
    cbn [app setupConfig upd_cmd upd_Config set_app set_state set_root].
    eexists. split; [reflexivity|].
    cbn. rewrite !cp_id. split; [reflexivity|]. split; [reflexivity|].
    split; [intros p Hq; rewrite !Hq; reflexivity|].
    rewrite !Nat.eqb_refl. split; reflexivity.
  - rewrite modify_bind.
    cbn [app setupConfig upd_cmd upd_Config set_app set_state set_root].
    do 4 (rewrite get_bind, modify_bind;
          cbn [app setupConfig upd_cmd upd_Config set_app set_state set_root]).
    rewrite get_bind.
    cbn [app setupConfig upd_cmd upd_Config set_app set_state set_root].
    eexists. split; [reflexivity|].
    cbn. rewrite !cp_id. split; [reflexivity|]. split; [reflexivity|].
    split; [intros p Hq; rewrite !Hq; reflexivity|].
    rewrite !Nat.eqb_refl. split; reflexivity.
Qed.

(** X15. With no post-construction hook registered, [SetupRootCommand]
    returns the command and makes only the [fangs.AddFlags] call; it
    records the command as the root, replaces [State.Config.Log] and
    [State.Config.Dev] by the defaults whatever they held, appends the
    configurations to [FromCommands], keeps the rest of the state, and
    binds the hooks that the command had before the call. *)
Theorem SetupRootCommand_without_hooks cmd cfgs w :
  postConstructs (setupConfig (app w)) = [] ->
  let r := SetupRootCommand cmd cfgs w in
  let st := state (app w) in
  let st' := state (app (world r)) in
  val r = cmd
  /\ evs r = [EvAddFlags cmd cfgs]
  /\ root (app (world r)) = Some cmd
  /\ Log (StConfig st') = DefaultLoggingConfig (setupConfig (app w))
  /\ Dev (StConfig st') = DefaultDevelopmentConfig (setupConfig (app w))
  /\ FromCommands (StConfig st') = FromCommands (StConfig st) ++ cfgs
  /\ StLogger st' = StLogger st
  /\ RedactStore st' = RedactStore st
  /\ cobra.PreRunE (cmds (world r) cmd)
     = Some (cobra.SetupPreRun cfgs (cobra.PreRunE (cmds w cmd)))
  /\ cobra.RunE (cmds (world r) cmd)
     = match cobra.RunE (cmds w cmd) with
       | Some fn => Some (cobra.AppRun fn)
       | None => None
       end.
Proof.
  intros Hpc. cbv zeta.
  destruct (root_prelude_state cmd w) as (w0 & Hrun & Ha & _ & _ & HP & HR).
  rewrite Hpc in Hrun. simpl in Hrun.
  assert (E : SetupRootCommand cmd cfgs w = setupCommand cmd cfgs w0).
  { rewrite SetupRootCommand_split. unfold bind. rewrite Hrun.
    unfold ret. cbn [val world evs]. destruct (setupCommand cmd cfgs w0); reflexivity. }
  rewrite E.
  destruct (setupCommand_run cmd cfgs w0) as (Hv & He & Hap & _).
  destruct (bound_fields cmd cfgs w0) as (R & P & _).
  cbv zeta in *. rewrite Hap, Ha, R, P, HP, HR.
  cbn. repeat split; auto.
Qed.

End MoreRoot.

(** ** More runs of the demo applications *)

Section MoreRuns.

#[local] Existing Instance Demo.types.

Lemma PostLoad_setup_failure_witness :
  PostLoad (C := Demo2.collaborators) Demo.w0
  = mkRes (Some Demo2.no_logger) Demo.w0 [EvExtern "resources"].
Proof.
  apply (PostLoad_setup_failure (C := Demo2.collaborators) Demo.w0 Demo2.no_logger).
  reflexivity.
Defined.

Lemma logVersion_with_version_witness :
  map rendered (evs (logVersion (Demo.config "100%" "1.2.3") (LoggerHandle 0) Demo.w0))
  = [Some "100% version: 1.2.3"].
Proof.
  apply (logVersion_with_version (Demo.config "100%" "1.2.3") (LoggerHandle 0) Demo.w0).
  reflexivity.
Defined.

Lemma logVersion_plain_name_witness :
  map rendered (evs (logVersion (Demo.config "tool" EmptyString) (LoggerHandle 0) Demo.w0))
  = [Some "tool"].
Proof.
  apply (logVersion_plain_name (Demo.config "tool" EmptyString) (LoggerHandle 0) Demo.w0);
    reflexivity.
Defined.

Lemma Setup_initializers_before_logs_witness :
  Setup (C := Demo.collaborators) (L := fangs (C := Demo.collaborators))
        [Some (DObj 1); None] 0 [] Demo2.w_ok
  = mkRes None Demo2.w_ok
      [EvExtern "resources"; EvExtern "initializer 1"; EvExtern "initializer 3";
       EvInfof (LoggerHandle 0) "tool" [];
       EvDebugf (LoggerHandle 0) ("config:" +++ nl +++ "%+v") ["  foo: bar"]].
Proof.
  apply (Setup_initializers_before_logs (C := Demo.collaborators)
           [Some (DObj 1); None] 0 [] Demo2.w_ok Demo2.w_ok [EvExtern "resources"]
           Demo2.w_ok [EvExtern "initializer 1"; EvExtern "initializer 3"]);
    reflexivity.
Defined.

Lemma async_never_panics_witness :
  forallb (fun a => negb (AsyncMore.is_panic a))
          [Async.Body (Returns None); Async.Close] = true
  /\ List.length (filter AsyncMore.is_body [Async.Body (Returns None); Async.Close]) <= 1
  /\ true = true.
Proof.
  apply (async_never_panics [Async.Body (Returns None); Async.Close]
           {| Async.at_pc := Async.Done false; Async.closed := true;
              Async.receiving := true |}).
  eapply Async.exec_step; [left; exists (Returns None); reflexivity|].
  eapply Async.exec_step; [left; exists (Returns None); reflexivity|].
  apply Async.exec_refl.
Defined.

(** The summary of the second demo: of four search locations, the two
    that end in ".yaml" are listed. *)
Lemma summarizeConfig_demo :
  summarizeConfig (C := Demo.collaborators) (S := Demo2.summaries) 0 Demo.w0
  = "Application Configuration:" +++ nl +++ nl
    +++ "  log:" +++ nl +++ "  level: info" +++ nl
    +++ "Config Search Locations:" +++ nl
    +++ "  - .tool.yaml" +++ nl
    +++ "  - tool/config.yaml".
Proof. reflexivity. Qed.

End MoreRuns.

Section MoreRootRuns.

#[local] Existing Instance Demo.types.

Lemma SetupRootCommand_without_hooks_witness :
  evs (SetupRootCommand (C := Demo.collaborators) 0 [Some (DObj 1)] Demo2.w_ok)
  = [EvAddFlags 0 [Some (DObj 1)]]
  /\ root (app (world (SetupRootCommand (C := Demo.collaborators) 0 [Some (DObj 1)]
                         Demo2.w_ok))) = Some 0.
Proof.
  destruct (SetupRootCommand_without_hooks (C := Demo.collaborators)
              0 [Some (DObj 1)] Demo2.w_ok eq_refl) as (_ & H1 & H2 & _).
  split; [exact H1 | exact H2].
Defined.

End MoreRootRuns.
